(** * AntiFlattenDistributionStrategy: a shallow embedding

    Embedding of [src/strategy/antiflatten_distribution_strategy.py]
    (class [AntiFlattenDistributionStrategy]) and theorems about its hooks.

    Conventions of the embedding.
    - Python [int] is [Z]; a [List[int]] is [list Z].
    - The hooks are stated with tensor entries as exact rationals ([Q]); what
      they prove about the bookkeeping takes the flatness verdict as it comes.
      The classifier is also defined over an arithmetic ([kernel]): exact
      rationals, and IEEE [binary32] tensors with [binary64] Python floats,
      rounding to nearest; the numerical boundary is proved there.
    - A hook that mutates [self] returns the new strategy record next to its
      Python return value; a Python exception is the [Raise] outcome.
    - [logits] and [continuation_tokens] are updated in place by the source
      and handed back; the model returns the updated value.
    - A tensor carries its element type and its shape next to nested lists
      of entries; [logits_wf] and [layer_wf] say that the lists have that
      shape. *)

From Stdlib Require Import ZArith QArith Qminmax Qround Qpower List Bool Lia Lqa Arith.
From Stdlib Require Import Sorting.Mergesort Sorting.Sorted Sorting.Permutation.
Import ListNotations.

Local Open Scope Z_scope.

(** ** Outcomes of a call *)

Inductive exn : Type :=
| IndexError          (* indexing or popping out of range; argmax of an empty tensor *)
| ZeroDivisionError.  (* float division by zero *)

(** [Fuel] is not a Python outcome: it marks a loop of the model that was
    given too few iterations.  [backtrack_fuel] shows that [backtrack] never
    produces it. *)
Inductive outcome (A : Type) : Type :=
| Ret (a : A)
| Raise (e : exn)
| Fuel.

Arguments Ret {A} a.
Arguments Raise {A} e.
Arguments Fuel {A}.

Definition bind {A B : Type} (m : outcome A) (k : A -> outcome B) : outcome B :=
  match m with
  | Ret a => k a
  | Raise e => Raise e
  | Fuel => Fuel
  end.

Notation "x <- m ;; k" := (bind m (fun x => k))
  (at level 61, m at next level, right associativity).

(** ** Python list primitives *)

(** [l[-1]] *)
Definition last_item {A : Type} (l : list A) : outcome A :=
  match rev l with
  | [] => Raise IndexError
  | x :: _ => Ret x
  end.

(** [l.pop()], returning the shortened list *)
Definition pop {A : Type} (l : list A) : outcome (list A) :=
  match l with
  | [] => Raise IndexError
  | _ :: _ => Ret (removelast l)
  end.

(** [l[0]] *)
Definition first_item {A : Type} (l : list A) : outcome A :=
  match l with
  | [] => Raise IndexError
  | x :: _ => Ret x
  end.

(** [slice(None, stop).indices(len)]: the end of the slice [[:stop]] of a
    sequence of length [len]. *)
Definition slice_stop (stop : Z) (len : nat) : nat :=
  if stop <? 0 then Z.to_nat (Z.max (stop + Z.of_nat len) 0)
  else Z.to_nat (Z.min stop (Z.of_nat len)).

(** ** Tensors *)

Inductive dtype : Type := float16 | bfloat16 | float32 | float64.

(** [torch.finfo(dtype).max], an integer for every floating type. *)
Definition finfo_max (d : dtype) : Q :=
  match d with
  | float16 => inject_Z 65504
  | bfloat16 => inject_Z ((2 ^ 8 - 1) * 2 ^ 120)
  | float32 => inject_Z ((2 ^ 24 - 1) * 2 ^ 104)
  | float64 => inject_Z ((2 ^ 53 - 1) * 2 ^ 971)
  end.

(** A distribution, after [probs.view(-1)]: the flat list of its entries. *)
Definition Probs : Type := list Q.

(** Logits: a [(batch, vocab)] tensor. *)
Record Logits : Type := mkLogits {
  l_dtype : dtype;
  l_vocab : nat;
  l_rows : list (list Q)
}.

Definition logits_wf (t : Logits) : Prop :=
  Forall (fun r => length r = l_vocab t) (l_rows t).

(** One cached array, shaped [(batch, heads, sequence-position, feature)]. *)
Record Layer : Type := mkLayer {
  c_dtype : dtype;
  c_batch : nat;
  c_heads : nat;
  c_seq : nat;
  c_feat : nat;
  c_data : list (list (list (list Q)))
}.

Definition layer_wf (t : Layer) : Prop :=
  length (c_data t) = c_batch t /\
  Forall (fun b => length b = c_heads t /\
    Forall (fun h => length h = c_seq t /\
      Forall (fun s => length s = c_feat t) h) b) (c_data t).

Definition Cache : Type := list (list Layer).

Fixpoint set_nth {A : Type} (n : nat) (v : A) (l : list A) {struct l} : list A :=
  match l, n with
  | [], _ => []
  | _ :: l', O => v :: l'
  | x :: l', S n' => x :: set_nth n' v l'
  end.

(** [t[:, j] = v] on a 2-D tensor; [j] may be negative, as in Python. *)
Definition setitem_column (t : Logits) (j : Z) (v : Q) : outcome Logits :=
  let V := Z.of_nat (l_vocab t) in
  if (- V <=? j) && (j <? V) then
    let j' := Z.to_nat (if j <? 0 then j + V else j) in
    Ret (mkLogits (l_dtype t) (l_vocab t) (map (set_nth j' v) (l_rows t)))
  else Raise IndexError.

(** [layer[:, :, :stop, :]] *)
Definition slice_seq (stop : Z) (t : Layer) : Layer :=
  let n := slice_stop stop (c_seq t) in
  mkLayer (c_dtype t) (c_batch t) (c_heads t) n (c_feat t)
          (map (map (firstn n)) (c_data t)).

(** ** torch primitives on flat tensors *)

(** The order of a descending sort: [x] comes before [y] when [y <= x]. *)
Module QDesc <: Orders.TotalLeBool.

Definition t := Q.

Definition leb (x y : Q) : bool := Qle_bool y x.

Theorem leb_total : forall x y, leb x y = true \/ leb y x = true.
Proof.
  intros x y. unfold leb. rewrite !Qle_bool_iff.
  destruct (Qlt_le_dec x y) as [H | H]; [right; apply Qlt_le_weak, H | left; exact H].
Qed.

End QDesc.

Module QSort := Sort QDesc.

(** [torch.sort(probs, descending=True)[0]] *)
Definition sort_descending (probs : list Q) : list Q := QSort.sort probs.

Fixpoint cumsum_from (acc : Q) (l : list Q) : list Q :=
  match l with
  | [] => []
  | x :: l' => (acc + x)%Q :: cumsum_from (acc + x)%Q l'
  end.

(** [torch.cumsum(l, dim=0)] *)
Definition cumsum (l : list Q) : list Q :=
  match l with
  | [] => []
  | x :: l' => x :: cumsum_from x l'
  end.

(** The bisection of [torch.searchsorted] ([right=False]): the loop
    [while (start < end) { mid = start + ((end - start) >> 1);
       if (!(seq[mid] >= val)) start = mid + 1; else end = mid; }]. *)
Fixpoint lower_bound (fuel : nat) (seq : list Q) (val : Q) (start stop : nat) : nat :=
  match fuel with
  | O => start
  | S fuel' =>
      if (start <? stop)%nat then
        let mid := (start + (stop - start) / 2)%nat in
        if Qle_bool val (nth mid seq 0%Q)
        then lower_bound fuel' seq val start mid
        else lower_bound fuel' seq val (S mid) stop
      else start
  end.

Definition searchsorted (seq : list Q) (val : Q) : nat :=
  lower_bound (length seq) seq val 0 (length seq).

(** Index of the first maximal entry, as [torch.argmax] on the flattened
    tensor; [(i, x)] is the best entry so far, [n] the next index. *)
Fixpoint argmax_from (best : nat * Q) (n : nat) (l : list Q) : nat :=
  match l with
  | [] => fst best
  | x :: l' =>
      if Qle_bool x (snd best) then argmax_from best (S n) l'
      else argmax_from (n, x) (S n) l'
  end.

Definition argmax (probs : Probs) : outcome Z :=
  match probs with
  | [] => Raise IndexError
  | x :: l => Ret (Z.of_nat (argmax_from (O, x) 1 l))
  end.

(** ** The strategy *)

Record Strategy : Type := mkStrategy {
  cumulative_prob_threshold : Q;
  ratio_threshold : Q;
  _is_flat : bool;
  _backtrack_position : option (Z * Z);
  _keep_index : Z
}.

(** [__init__]; the defaults are [0.35] and [1.5]. *)
Definition init (cumulative_prob_threshold ratio_threshold : Q) : Strategy :=
  mkStrategy cumulative_prob_threshold ratio_threshold false None 0.

Definition default_strategy : Strategy := init (35 # 100) (15 # 10).

Definition get_keep_index (self : Strategy) : Z := _keep_index self.

Definition epsilon : Q := 1 # 100000000.

Definition _is_distribution_flat (self : Strategy) (probs : Probs) : outcome bool :=
  let sorted_probs := sort_descending probs in
  let cumulative_probs := cumsum sorted_probs in
  let num_top_tokens :=
    (searchsorted cumulative_probs (cumulative_prob_threshold self) + 1)%nat in
  let top_probs := firstn num_top_tokens sorted_probs in
  if (num_top_tokens <? 2)%nat then Ret false
  else
    max_prob <- first_item top_probs ;;
    last_prob <- last_item top_probs ;;
    let last_max_prob := (last_prob + epsilon)%Q in
    if Qeq_bool last_max_prob 0 then Raise ZeroDivisionError
    else Ret (Qle_bool (max_prob / last_max_prob) (ratio_threshold self)).

Definition set_is_flat (self : Strategy) (b : bool) : Strategy :=
  mkStrategy (cumulative_prob_threshold self) (ratio_threshold self)
             b (_backtrack_position self) (_keep_index self).

Definition set_backtrack_position (self : Strategy) (p : option (Z * Z)) : Strategy :=
  mkStrategy (cumulative_prob_threshold self) (ratio_threshold self)
             (_is_flat self) p (_keep_index self).

Definition set_keep_index (self : Strategy) (k : Z) : Strategy :=
  mkStrategy (cumulative_prob_threshold self) (ratio_threshold self)
             (_is_flat self) (_backtrack_position self) k.

(** The assignment into [logits] comes first: when it raises, the pending
    position is still there. *)
Definition on_logits (self : Strategy) (logits : Logits) (continuation_tokens : list Z)
  : outcome (Strategy * Logits) :=
  match _is_flat self, _backtrack_position self with
  | true, Some (_, token) =>
      logits' <- setitem_column logits token (finfo_max (l_dtype logits)) ;;
      Ret (set_backtrack_position self None, logits')
  | _, _ => Ret (self, logits)
  end.

Definition on_probs (self : Strategy) (probs : Probs) (continuation_tokens : list Z)
  : outcome (Strategy * Probs) :=
  flat <- _is_distribution_flat self probs ;;
  Ret (set_is_flat self flat, probs).

Definition on_next_token (self : Strategy) (continuation_tokens : list Z) (probs : Probs)
  : outcome Strategy :=
  latest_token <- last_item continuation_tokens ;;
  highest_prob_token <- argmax probs ;;
  if negb (latest_token =? highest_prob_token) then
    let keep := Z.of_nat (length continuation_tokens) - 1 in
    Ret (set_backtrack_position (set_keep_index self keep)
                                (Some (keep, highest_prob_token)))
  else
    match _backtrack_position self with
    | None => Ret (set_keep_index self (_keep_index self + 1))
    | Some _ => Ret self
    end.

(** [while current_position > frontier: continuation_tokens.pop();
    current_position -= 1] *)
Fixpoint pop_loop (fuel : nat) (continuation_tokens : list Z)
         (current_position frontier : Z) : outcome (list Z * Z) :=
  if current_position >? frontier then
    match fuel with
    | O => Fuel
    | S fuel' =>
        tokens' <- pop continuation_tokens ;;
        pop_loop fuel' tokens' (current_position - 1) frontier
    end
  else Ret (continuation_tokens, current_position).

(** [if past_key_values:] is false for [None] and for an empty tuple. *)
Definition truncate_cache (stop : Z) (past_key_values : option Cache) : option Cache :=
  match past_key_values with
  | Some ((_ :: _) as kvs) => Some (map (map (slice_seq stop)) kvs)
  | _ => past_key_values
  end.

(** [backtrack] assigns to no attribute of [self]: the strategy comes back
    as it went in. *)
Definition backtrack (self : Strategy) (continuation_tokens : list Z)
           (past_key_values : option Cache)
  : outcome (Strategy * (list Z * option Cache)) :=
  match _is_flat self, _backtrack_position self with
  | true, Some (frontier, _) =>
      let current_position := Z.of_nat (length continuation_tokens) in
      let initial_position := current_position in
      r <- pop_loop (S (length continuation_tokens)) continuation_tokens
                    current_position frontier ;;
      let '(tokens', current_position') := r in
      Ret (self, (tokens',
                  truncate_cache (current_position' - initial_position) past_key_values))
  | _, _ => Ret (self, (continuation_tokens, past_key_values))
  end.

(** ** The host protocol

    One generation step is [on_logits], [on_probs], the host appending the
    sampled token, [on_next_token], and then at most one [backtrack] before
    the next [on_logits].  The distribution handed to [on_probs] is the one
    handed to [on_next_token]. *)

Inductive phase : Type :=
| ExpectLogits
| ExpectProbs
| ExpectSample (probs : Probs)
| ExpectNextToken (probs : Probs)
| MayBacktrack.

Record host : Type := mkHost {
  h_strategy : Strategy;
  h_tokens : list Z;
  h_phase : phase
}.

Definition host_init (ct rt : Q) : host := mkHost (init ct rt) [] ExpectLogits.

(** The calls a host makes, with their arguments. *)
Inductive call : Type :=
| CallLogits (logits : Logits)
| CallProbs (probs : Probs)
| Sample (token : Z)
| CallNextToken
| CallBacktrack (past_key_values : option Cache).

Definition host_call (h : host) (c : call) : option (outcome host) :=
  match c, h_phase h with
  | CallLogits logits, (ExpectLogits | MayBacktrack) =>
      Some (r <- on_logits (h_strategy h) logits (h_tokens h) ;;
            Ret (mkHost (fst r) (h_tokens h) ExpectProbs))
  | CallProbs probs, ExpectProbs =>
      Some (r <- on_probs (h_strategy h) probs (h_tokens h) ;;
            Ret (mkHost (fst r) (h_tokens h) (ExpectSample (snd r))))
  | Sample token, ExpectSample probs =>
      Some (Ret (mkHost (h_strategy h) (h_tokens h ++ [token]) (ExpectNextToken probs)))
  | CallNextToken, ExpectNextToken probs =>
      Some (self' <- on_next_token (h_strategy h) (h_tokens h) probs ;;
            Ret (mkHost self' (h_tokens h) MayBacktrack))
  | CallBacktrack past_key_values, MayBacktrack =>
      Some (r <- backtrack (h_strategy h) (h_tokens h) past_key_values ;;
            Ret (mkHost (fst r) (fst (snd r)) ExpectLogits))
  | _, _ => None
  end.

(** [host_step h c h']: call [c] is allowed in the phase of [h] and returns,
    leaving the host in [h']. *)
Definition host_step (h : host) (c : call) (h' : host) : Prop :=
  host_call h c = Some (Ret h').

Inductive reachable (ct rt : Q) : host -> Prop :=
| reach_init : reachable ct rt (host_init ct rt)
| reach_step : forall h c h',
    reachable ct rt h -> host_step h c h' -> reachable ct rt h'.

(** States a strategy object can be in: those [__init__] builds and those a
    returning hook call leaves behind, in whatever order the hooks are
    called. *)
Inductive constructible : Strategy -> Prop :=
| built : forall ct rt, constructible (init ct rt)
| after_on_logits : forall self logits tokens self' logits',
    constructible self ->
    on_logits self logits tokens = Ret (self', logits') -> constructible self'
| after_on_probs : forall self probs tokens self' probs',
    constructible self ->
    on_probs self probs tokens = Ret (self', probs') -> constructible self'
| after_on_next_token : forall self tokens probs self',
    constructible self ->
    on_next_token self tokens probs = Ret self' -> constructible self'
| after_backtrack : forall self tokens cache self' out,
    constructible self ->
    backtrack self tokens cache = Ret (self', out) -> constructible self'.

(** Entry [(i, j)] of a logits tensor. *)
Definition logit (t : Logits) (i j : nat) : Q := nth j (nth i (l_rows t) []) 0%Q.

(** Running a list of calls from a host state. *)
Fixpoint run (h : host) (calls : list call) : option (outcome host) :=
  match calls with
  | [] => Some (Ret h)
  | c :: calls' =>
      match host_call h c with
      | Some (Ret h') => run h' calls'
      | other => other
      end
  end.

(** ** Floating-point arithmetic

    The tensors of the source hold [float32] values and Python's [float] is a
    [binary64].  A value is its exact rational, an infinity or NaN (the two
    zeros are not told apart); an operation computes exactly and rounds to
    the nearest value of the format, ties to even. *)

Definition pow2 (e : Z) : Q := (2 ^ e)%Q.

(** For [q > 0], the [m] with [2^(m-1) <= q < 2^m]. *)
Definition mag (q : Q) : Z :=
  let l := Z.log2 (Qnum q) - Z.log2 (Zpos (Qden q)) in
  if Qle_bool (pow2 l) q then l + 1 else l.

Definition round_half_even (x : Q) : Z :=
  let f := Qfloor x in
  match Qcompare (x - inject_Z f) (1 # 2) with
  | Lt => f
  | Gt => f + 1
  | Eq => if Z.even f then f else f + 1
  end.

(** [prec] bits of significand, exponents below [emax]. *)
Record format : Type := mkFormat { prec : Z; emax : Z }.

Definition emin (fmt : format) : Z := 3 - emax fmt - prec fmt.

Definition binary32 : format := mkFormat 24 128.
Definition binary64 : format := mkFormat 53 1024.

(** Exponent of the last place of [q] in the format (subnormals included). *)
Definition cexp (fmt : format) (q : Q) : Z := Z.max (mag q - prec fmt) (emin fmt).

(** Nearest multiple of the last place, for [q > 0]. *)
Definition round_pos (fmt : format) (q : Q) : Q :=
  let e := cexp fmt q in
  (inject_Z (round_half_even (q / pow2 e)) * pow2 e)%Q.

Inductive fl : Type :=
| Fin (q : Q)
| Inf (negative : bool)
| NaN.

(** Rounding to the format; a result of [2^emax] or more overflows. *)
Definition rn (fmt : format) (q : Q) : fl :=
  match Qcompare q 0 with
  | Eq => Fin 0
  | Gt => let r := round_pos fmt q in
          if Qle_bool (pow2 (emax fmt)) r then Inf false else Fin r
  | Lt => let r := round_pos fmt (- q) in
          if Qle_bool (pow2 (emax fmt)) r then Inf true else Fin (- r)
  end.

Definition fl_add (fmt : format) (a b : fl) : fl :=
  match a, b with
  | NaN, _ | _, NaN => NaN
  | Inf s, Inf s' => if Bool.eqb s s' then Inf s else NaN
  | Inf s, Fin _ => Inf s
  | Fin _, Inf s => Inf s
  | Fin x, Fin y => rn fmt (x + y)
  end.

(** Division by a value that is not zero (the caller raises on zero). *)
Definition fl_div (fmt : format) (a b : fl) : fl :=
  match a, b with
  | NaN, _ | _, NaN => NaN
  | Inf _, Inf _ => NaN
  | Inf s, Fin y => Inf (xorb s (Qle_bool y 0))
  | Fin _, Inf _ => Fin 0
  | Fin x, Fin y => rn fmt (x / y)
  end.

(** [a <= b]; false when one side is NaN. *)
Definition fl_leb (a b : fl) : bool :=
  match a, b with
  | NaN, _ | _, NaN => false
  | Inf true, _ => true
  | _, Inf false => true
  | Inf false, _ => false
  | _, Inf true => false
  | Fin x, Fin y => Qle_bool x y
  end.

Definition fl_is_zero (a : fl) : bool :=
  match a with
  | Fin q => Qeq_bool q 0
  | _ => false
  end.

(** Conversion of a value to a format: [tensor.to(dtype)], a C cast. *)
Definition to_format (fmt : format) (a : fl) : fl :=
  match a with
  | Fin q => rn fmt q
  | _ => a
  end.

(** The order of [torch.sort]: as [fl_leb], with NaN above everything. *)
Definition fl_sort_leb (a b : fl) : bool :=
  match a, b with
  | _, NaN => true
  | NaN, _ => false
  | _, _ => fl_leb a b
  end.

Lemma fl_sort_leb_total (x y : fl) :
  fl_sort_leb y x = true \/ fl_sort_leb x y = true.
Proof.
  destruct x as [p | [|] |], y as [q | [|] |]; cbn; auto.
  rewrite !Qle_bool_iff.
  destruct (Qlt_le_dec p q) as [H | H]; [right; apply Qlt_le_weak, H | left; exact H].
Qed.

Module FlDesc <: Orders.TotalLeBool.

Definition t := fl.

Definition leb (x y : fl) : bool := fl_sort_leb y x.

Definition leb_total : forall x y, leb x y = true \/ leb y x = true :=
  fl_sort_leb_total.

End FlDesc.

Module FlSort := Sort FlDesc.

(** [torch.cumsum] of a [float32] tensor on the CPU: the running sum is kept
    in the accumulate type, [double], and each entry is its cast to
    [float32]. *)
Fixpoint cumsum_double (acc : fl) (l : list fl) : list fl :=
  match l with
  | [] => []
  | x :: l' =>
      let acc' := fl_add binary64 acc x in
      to_format binary32 acc' :: cumsum_double acc' l'
  end.

(** The same sum with the running sum kept in [float32]. *)
Fixpoint cumsum_single (acc : fl) (l : list fl) : list fl :=
  match l with
  | [] => []
  | x :: l' =>
      let acc' := fl_add binary32 acc x in
      acc' :: cumsum_single acc' l'
  end.

(** ** The classifier over an arithmetic

    What [_is_distribution_flat] takes from the libraries: the element type
    of the tensor with [torch.sort], [torch.cumsum] and the comparison of
    [torch.searchsorted], and Python's [float] with the conversion of a scalar
    to the element type ([of_py]), [.item()], [+], [/], [<=] and [1e-8]. *)
Record kernel : Type := mkKernel {
  elt : Type;
  py : Type;
  zero : elt;
  sort_desc : list elt -> list elt;
  running_sum : list elt -> list elt;
  le : elt -> elt -> bool;
  of_py : py -> elt;
  item : elt -> py;
  py_add : py -> py -> py;
  py_eps : py;
  py_is_zero : py -> bool;
  py_div : py -> py -> py;
  py_le : py -> py -> bool
}.

Fixpoint lower_bound_in (K : kernel) (fuel : nat) (seq : list (elt K)) (val : elt K)
         (start stop : nat) : nat :=
  match fuel with
  | O => start
  | S fuel' =>
      if (start <? stop)%nat then
        let mid := (start + (stop - start) / 2)%nat in
        if le K val (nth mid seq (zero K))
        then lower_bound_in K fuel' seq val start mid
        else lower_bound_in K fuel' seq val (S mid) stop
      else start
  end.

Definition searchsorted_in (K : kernel) (seq : list (elt K)) (val : elt K) : nat :=
  lower_bound_in K (length seq) seq val 0 (length seq).

(** [_is_distribution_flat], with the thresholds of [self] as arguments. *)
Definition is_distribution_flat_in (K : kernel)
           (cumulative_prob_threshold ratio_threshold : py K)
           (probs : list (elt K)) : outcome bool :=
  let sorted_probs := sort_desc K probs in
  let cumulative_probs := running_sum K sorted_probs in
  let num_top_tokens :=
    (searchsorted_in K cumulative_probs (of_py K cumulative_prob_threshold) + 1)%nat in
  let top_probs := firstn num_top_tokens sorted_probs in
  if (num_top_tokens <? 2)%nat then Ret false
  else
    max_prob <- first_item top_probs ;;
    last_prob <- last_item top_probs ;;
    let last_max_prob := py_add K (item K last_prob) (py_eps K) in
    if py_is_zero K last_max_prob then Raise ZeroDivisionError
    else Ret (py_le K (py_div K (item K max_prob) last_max_prob) ratio_threshold).

(** Exact rational arithmetic: [_is_distribution_flat] is this instance. *)
Definition exact_kernel : kernel :=
  mkKernel Q Q 0%Q sort_descending cumsum Qle_bool (fun q => q) (fun q => q)
           Qplus epsilon (fun q => Qeq_bool q 0) Qdiv Qle_bool.

Definition ieee_of (sum : list fl -> list fl) : kernel :=
  mkKernel fl fl (Fin 0) FlSort.sort sum fl_leb
           (to_format binary32) (fun x => x)
           (fl_add binary64) (rn binary64 (1 # 100000000))
           fl_is_zero (fl_div binary64) fl_leb.

(** [float32] tensors on the CPU, and the variant that sums in [float32]. *)
Definition ieee_cpu : kernel := ieee_of (cumsum_double (Fin 0)).
Definition ieee_single : kernel := ieee_of (cumsum_single (Fin 0)).

(** An entry that is not negative (and not NaN). *)
Definition nonneg_in (K : kernel) (x : elt K) : Prop := le K (zero K) x = true.


(** What the classifier needs of the arithmetic: sorting permutes, the
    running sum has one entry per element and, over entries that are not
    negative, stays at or above a value it has reached; adding [1e-8] to such
    an entry does not give zero. *)
Record lawful (K : kernel) : Prop := mkLawful {
  sort_permutes : forall l, Permutation l (sort_desc K l);
  sum_length : forall l, length (running_sum K l) = length l;
  sum_stays : forall l t i j,
      Forall (nonneg_in K) l -> (i <= j < length l)%nat ->
      le K t (nth i (running_sum K l) (zero K)) = true ->
      le K t (nth j (running_sum K l) (zero K)) = true;
  eps_not_zero : forall x,
      nonneg_in K x -> py_is_zero K (py_add K (item K x) (py_eps K)) = false
}.

(** A [float32] and a [float] written in decimal. *)
Definition f32 (q : Q) : fl := rn binary32 q.
Definition f64 (q : Q) : fl := rn binary64 q.


(** Six [float32] values that add up to one; the sum of the first two is
    half a unit in the last place below [0.5]. *)
Definition tie_probs : list Q :=
  [1 # 4; (1 # 4) - (1 # 67108864); (1 # 8) + (1 # 67108864); 1 # 8; 1 # 8; 1 # 8]%Q.


(** ** Notions used in the statements *)

(** A recorded frontier is the index of a token that was in the list. *)
Definition frontier_nonneg (self : Strategy) : Prop :=
  forall frontier token,
    _backtrack_position self = Some (frontier, token) -> 0 <= frontier.

Definition scenario_logits : Logits :=
  mkLogits float32 10
    [[1#1; 2#1; 3#1; 4#1; 5#1; 6#1; 7#1; 8#1; 9#1; 10#1]]%Q.

Definition scenario_pending : Strategy :=
  mkStrategy (35 # 100) (15 # 10) true (Some (2, 7)) 2.

(** [new] is [old] without its last [removed] sequence positions; the other
    axes and the element type are those of [old]. *)
Definition truncated_by (removed : nat) (old new : Layer) : Prop :=
  c_seq new = (c_seq old - removed)%nat /\
  c_dtype new = c_dtype old /\
  c_batch new = c_batch old /\
  c_heads new = c_heads old /\
  c_feat new = c_feat old /\
  c_data new = map (map (firstn (c_seq new))) (c_data old) /\
  (layer_wf old -> layer_wf new).

(** A cache with one position per generated token, and one that also holds
    the two positions of a prompt. *)
Definition token_layer : Layer :=
  mkLayer float16 1 1 3 2 [[[[1#1; 2#1]; [3#1; 4#1]; [5#1; 6#1]]]]%Q.

Definition prompt_layer : Layer :=
  mkLayer float16 1 1 5 2
          [[[[7#1; 8#1]; [9#1; 1#2]; [1#1; 2#1]; [3#1; 4#1]; [5#1; 6#1]]]]%Q.

(** A distribution over ten tokens: its first maximum is at token 7 and the
    top mass is flat (prefix [0.13, 0.12, 0.12], ratio about [1.08]). *)
Definition scenario_probs : Probs :=
  [9#100; 9#100; 9#100; 9#100; 9#100; 9#100; 9#100; 13#100; 12#100; 12#100]%Q.

(** Tokens [5] and [9] committed, nothing pending. *)
Definition scenario_clean : Strategy :=
  mkStrategy (35 # 100) (15 # 10) false None 2.

Definition keep (h : host) : Z := get_keep_index (h_strategy h).
Definition pending (h : host) : option (Z * Z) := _backtrack_position (h_strategy h).
Definition token_count (h : host) : Z := Z.of_nat (length (h_tokens h)).

(** While a token is appended but not yet seen by [on_next_token] the keep
    index is strictly below the length; a pending frontier is the keep index. *)
Definition host_inv (h : host) : Prop :=
  0 <= keep h /\
  (match h_phase h with
   | ExpectNextToken _ => keep h + 1 <= token_count h
   | _ => keep h <= token_count h
   end) /\
  (forall frontier token, pending h = Some (frontier, token) -> frontier = keep h).

(** A distribution with a dominant first token: not flat, argmax 0. *)
Definition peaked_probs : Probs := [9#10; 1#10]%Q.

Definition small_logits : Logits := mkLogits float32 2 [[3#1; 4#1]]%Q.

(** One step that samples token 1 against the argmax 0 of a peaked
    distribution. *)
Definition diverging_step : list call :=
  [CallLogits small_logits; CallProbs peaked_probs; Sample 1; CallNextToken;
   CallBacktrack None].

Definition backtracked_run : list call :=
  [CallLogits scenario_logits; CallProbs scenario_probs; Sample 2;
   CallNextToken; CallBacktrack None; CallLogits scenario_logits;
   CallProbs scenario_probs; Sample 7].

Definition backtracked_host : host :=
  mkHost (mkStrategy (35 # 100) (15 # 10) true None 0) [7]
         (ExpectNextToken scenario_probs).

Definition twice_diverging_run : list call :=
  diverging_step ++ [CallLogits small_logits; CallProbs peaked_probs; Sample 1].

Definition twice_diverging_host : host :=
  mkHost (mkStrategy (35 # 100) (15 # 10) false (Some (0, 0)) 0) [1; 1]
         (ExpectNextToken peaked_probs).

(** What the host supplies in one generation step; [s_backtrack] is [None]
    when the host does not call [backtrack] in that step. *)
Record step : Type := mkStep {
  s_logits : Logits;
  s_probs : Probs;
  s_sampled : Z;
  s_backtrack : option (option Cache)
}.

Definition step_calls (x : step) : list call :=
  [CallLogits (s_logits x); CallProbs (s_probs x); Sample (s_sampled x); CallNextToken]
  ++ match s_backtrack x with
     | Some cache => [CallBacktrack cache]
     | None => []
     end.

(** A step whose sampled token is the argmax and whose verdict is [verdict]. *)
Definition matching_step (ct rt : Q) (verdict : bool) (x : step) : Prop :=
  _is_distribution_flat (init ct rt) (s_probs x) = Ret verdict /\
  argmax (s_probs x) = Ret (s_sampled x).

(** Between two steps, with position [(frontier, token)] pending since an
    earlier divergence. *)
Definition frozen (ct rt : Q) (frontier token : Z) (flat : bool) (h : host) : Prop :=
  (h_phase h = MayBacktrack \/ h_phase h = ExpectLogits) /\
  cumulative_prob_threshold (h_strategy h) = ct /\
  ratio_threshold (h_strategy h) = rt /\
  _is_flat (h_strategy h) = flat /\
  pending h = Some (frontier, token) /\
  keep h = frontier.

Definition matching_peaked_step : step :=
  mkStep small_logits peaked_probs 0 (Some None).

Definition matching_flat_step : step :=
  mkStep scenario_logits scenario_probs 7 (Some None).

(** Sum of a list; [Qsum (firstn k l)] is the cumulative sum of the prefix
    of length [k]. *)
Definition Qsum (l : list Q) : Q := fold_right Qplus 0%Q l.

Definition nonneg (l : list Q) : Prop := Forall (fun p => (0 <= p)%Q) l.

(** A sequence in which later entries are not smaller. *)
Definition ascending (seq : list Q) : Prop :=
  forall i j, (i <= j < length seq)%nat -> (nth i seq 0 <= nth j seq 0)%Q.

Definition scenario_a : Probs := [50#100; 48#100; 2#100]%Q.
Definition scenario_b : Probs := [30#100; 29#100; 28#100; 13#100]%Q.

(** A host that calls [backtrack] in every step: [on_logits] only follows
    [backtrack] (or starts the run). *)
Inductive diligent (ct rt : Q) : host -> Prop :=
| diligent_init : diligent ct rt (host_init ct rt)
| diligent_step : forall h c h',
    diligent ct rt h ->
    host_step h c h' ->
    (forall logits, c = CallLogits logits -> h_phase h = ExpectLogits) ->
    diligent ct rt h'.

(** A step whose sampled token is the argmax, whatever the verdict. *)
Definition agreeing_step (ct rt : Q) (x : step) : Prop :=
  exists verdict, matching_step ct rt verdict x.

(** The classifier after the sort: [_is_distribution_flat self probs] is
    [verdict_of_sorted self (sort_descending probs)]. *)
Definition verdict_of_sorted (self : Strategy) (sorted_probs : list Q) : outcome bool :=
  let cumulative_probs := cumsum sorted_probs in
  let num_top_tokens :=
    (searchsorted cumulative_probs (cumulative_prob_threshold self) + 1)%nat in
  let top_probs := firstn num_top_tokens sorted_probs in
  if (num_top_tokens <? 2)%nat then Ret false
  else
    max_prob <- first_item top_probs ;;
    last_prob <- last_item top_probs ;;
    let last_max_prob := (last_prob + epsilon)%Q in
    if Qeq_bool last_max_prob 0 then Raise ZeroDivisionError
    else Ret (Qle_bool (max_prob / last_max_prob) (ratio_threshold self)).

(** One committed token, then a flat divergence that is rolled back. *)
Definition committed_host : host :=
  mkHost (mkStrategy (35 # 100) (15 # 10) true None 1) [7] MayBacktrack.

Definition rollback_run : list call :=
  [CallBacktrack None; CallLogits scenario_logits; CallProbs scenario_probs;
   Sample 2; CallNextToken; CallBacktrack None].

(** Every token is committed: the keep index is the number of tokens, or one
    less while the appended token waits for [on_next_token]. *)
Definition settled (h : host) : Prop :=
  match h_phase h with
  | ExpectNextToken _ => keep h + 1 = token_count h
  | _ => keep h = token_count h
  end.

Definition diligent_inv (h : host) : Prop :=
  (pending h = None -> settled h) /\
  (h_phase h = ExpectLogits ->
   forall frontier token,
     pending h = Some (frontier, token) ->
     _is_flat (h_strategy h) = true -> token_count h = frontier).

Definition committed_end : host :=
  mkHost (mkStrategy (35 # 100) (15 # 10) true (Some (1, 7)) 1) [7] ExpectLogits.

(** Hosts between two steps with nothing pending. *)
Definition idle_clean (ct rt : Q) (h : host) : Prop :=
  (h_phase h = MayBacktrack \/ h_phase h = ExpectLogits) /\
  cumulative_prob_threshold (h_strategy h) = ct /\
  ratio_threshold (h_strategy h) = rt /\
  pending h = None.

(** The calls of a correction: a step that diverges, the rollback, and the
    next step up to [on_next_token]. *)
Definition correction_calls (probs : Probs) (sampled : Z) (cache : option Cache)
           (logits : Logits) (probs' : Probs) (preferred : Z) : list call :=
  [CallProbs probs; Sample sampled; CallNextToken; CallBacktrack cache;
   CallLogits logits; CallProbs probs'; Sample preferred; CallNextToken].

Definition agreeing_flat_step : step :=
  mkStep scenario_logits scenario_probs 7 (Some None).

Definition agreeing_peaked_step : step :=
  mkStep small_logits peaked_probs 0 None.

(** The distribution of the step after the correction: token 7 dominates. *)
Definition forced_probs : Probs :=
  [1#100; 1#100; 1#100; 1#100; 1#100; 1#100; 1#100; 91#100; 1#100; 1#100]%Q.

(** A state whose pending position sits at the end of a three-token list. *)
Definition pending_at_end : Strategy :=
  mkStrategy (35 # 100) (15 # 10) true (Some (3, 7)) 3.

(** The defaults with a larger ratio threshold. *)
Definition lenient_strategy : Strategy := init (35 # 100) (3 # 1).

(** [scenario_b] in another order, with some entries written differently. *)
Definition scenario_b_shuffled : Probs := [13#100; 3#10; 28#100; 58#200]%Q.

(** * Properties *)

(** ** Outcomes and list primitives *)

Lemma bind_ret_inv {A B : Type} (m : outcome A) (k : A -> outcome B) (b : B) :
  bind m k = Ret b -> exists a, m = Ret a /\ k a = Ret b.
Proof.
  destruct m as [a | e |]; simpl; intros H; try discriminate.
  exists a. split; [reflexivity | exact H].
Qed.

Lemma last_item_app {A : Type} (l : list A) (x : A) : last_item (l ++ [x]) = Ret x.
Proof. unfold last_item. rewrite rev_app_distr. reflexivity. Qed.

Lemma last_item_ret_inv {A : Type} (l : list A) (x : A) :
  last_item l = Ret x -> exists front, l = front ++ [x].
Proof.
  unfold last_item. intros H.
  destruct (rev l) as [| y r] eqn:E; [discriminate |].
  injection H as ->. exists (rev r).
  rewrite <- (rev_involutive l), E. reflexivity.
Qed.

Lemma pop_length (l l' : list Z) :
  pop l = Ret l' -> S (length l') = length l /\ l' = firstn (length l') l.
Proof.
  destruct l as [| x l0]; simpl; [discriminate |].
  intros H. injection H as <-.
  change (match l0 with [] => [] | _ :: _ => x :: removelast l0 end)
    with (removelast (x :: l0)).
  rewrite removelast_firstn_len at 2.
  assert (length (removelast (x :: l0)) = length l0) as ->.
  { rewrite removelast_firstn_len, length_firstn. simpl. lia. }
  simpl. auto.
Qed.

(** The loop of [backtrack], run with more fuel than there are tokens: it
    stops at the frontier, or raises once the list is empty. *)
Lemma pop_loop_spec (fuel : nat) : forall (tokens : list Z) (frontier : Z),
  (length tokens < fuel)%nat ->
  pop_loop fuel tokens (Z.of_nat (length tokens)) frontier =
    if frontier <? 0 then Raise IndexError
    else Ret (firstn (Z.to_nat frontier) tokens,
              Z.min frontier (Z.of_nat (length tokens))).
Proof.
  induction fuel as [| fuel IH]; intros tokens frontier Hfuel; [lia |].
  cbn [pop_loop].
  destruct (Z.gtb_spec (Z.of_nat (length tokens)) frontier) as [Hgt | Hle].
  - destruct (pop tokens) as [tokens' | e |] eqn:Hpop.
    + destruct (pop_length _ _ Hpop) as [Hlen Hpre].
      cbn [bind].
      replace (Z.of_nat (length tokens) - 1) with (Z.of_nat (length tokens')) by lia.
      rewrite IH by lia.
      destruct (Z.ltb_spec frontier 0) as [Hneg | Hpos]; [reflexivity |].
      f_equal. f_equal; [| lia].
      rewrite Hpre, firstn_firstn. f_equal. lia.
    + destruct tokens; [| discriminate].
      injection Hpop as <-. simpl in Hgt. cbn [bind].
      destruct (Z.ltb_spec frontier 0); [reflexivity | lia].
    + destruct tokens; discriminate.
  - destruct (Z.ltb_spec frontier 0) as [Hneg | Hpos]; [lia |].
    rewrite firstn_all2 by lia. f_equal. f_equal. lia.
Qed.

Lemma pop_loop_total (tokens : list Z) (frontier : Z) :
  pop_loop (S (length tokens)) tokens (Z.of_nat (length tokens)) frontier <> Fuel.
Proof.
  rewrite pop_loop_spec by lia. destruct (frontier <? 0); discriminate.
Qed.

(** [backtrack], unfolded: what it returns in a flat, pending state. *)
Lemma backtrack_pending (self : Strategy) (tokens : list Z) (cache : option Cache)
      (frontier token : Z) :
  _is_flat self = true ->
  _backtrack_position self = Some (frontier, token) ->
  backtrack self tokens cache =
    if frontier <? 0 then Raise IndexError
    else Ret (self, (firstn (Z.to_nat frontier) tokens,
                     truncate_cache (Z.min frontier (Z.of_nat (length tokens))
                                     - Z.of_nat (length tokens)) cache)).
Proof.
  intros Hflat Hpos. unfold backtrack. rewrite Hflat, Hpos.
  rewrite pop_loop_spec by lia.
  destruct (frontier <? 0); reflexivity.
Qed.

Lemma backtrack_idle (self : Strategy) (tokens : list Z) (cache : option Cache) :
  _is_flat self = false \/ _backtrack_position self = None ->
  backtrack self tokens cache = Ret (self, (tokens, cache)).
Proof.
  unfold backtrack. intros [H | H]; rewrite H; [reflexivity |].
  destruct (_is_flat self); reflexivity.
Qed.

(** The fuel handed to the loop of [backtrack] is always enough. *)
Lemma backtrack_fuel (self : Strategy) (tokens : list Z) (cache : option Cache) :
  backtrack self tokens cache <> Fuel.
Proof.
  destruct (_is_flat self) eqn:Hflat;
    [| rewrite backtrack_idle by (left; exact Hflat); discriminate].
  destruct (_backtrack_position self) as [[frontier token] |] eqn:Hpos;
    [| rewrite backtrack_idle by (right; exact Hpos); discriminate].
  rewrite (backtrack_pending _ _ _ _ _ Hflat Hpos).
  destruct (frontier <? 0); discriminate.
Qed.

Lemma backtrack_state (self self' : Strategy) (tokens : list Z) (cache : option Cache)
      (out : list Z * option Cache) :
  backtrack self tokens cache = Ret (self', out) -> self' = self.
Proof.
  unfold backtrack.
  destruct (_is_flat self); [| intros H; injection H; auto].
  destruct (_backtrack_position self) as [[frontier token] |];
    [| intros H; injection H; auto].
  intros H. apply bind_ret_inv in H. destruct H as [[toks cur] [_ H]].
  injection H; auto.
Qed.

(** ** The bookkeeping of [on_next_token] *)

Lemma on_next_token_cases (self self' : Strategy) (tokens : list Z) (probs : Probs) :
  on_next_token self tokens probs = Ret self' ->
  exists latest preferred,
    last_item tokens = Ret latest /\ argmax probs = Ret preferred /\
    ((latest <> preferred /\
      self' = set_backtrack_position
                (set_keep_index self (Z.of_nat (length tokens) - 1))
                (Some (Z.of_nat (length tokens) - 1, preferred)))
     \/ (latest = preferred /\ _backtrack_position self = None /\
         self' = set_keep_index self (_keep_index self + 1))
     \/ (latest = preferred /\ _backtrack_position self <> None /\ self' = self)).
Proof.
  unfold on_next_token. intros H.
  apply bind_ret_inv in H. destruct H as [latest [Hlast H]].
  apply bind_ret_inv in H. destruct H as [preferred [Harg H]].
  exists latest, preferred. split; [exact Hlast | split; [exact Harg |]].
  destruct (Z.eqb_spec latest preferred) as [Heq | Hne]; cbn [negb] in H.
  - destruct (_backtrack_position self) eqn:Hpos; injection H as <-.
    + right; right. repeat split; congruence.
    + right; left. auto.
  - left. injection H as <-. auto.
Qed.

Lemma on_logits_cases (self self' : Strategy) (logits logits' : Logits) (tokens : list Z) :
  on_logits self logits tokens = Ret (self', logits') ->
  (self' = self /\ logits' = logits /\
   (_is_flat self = false \/ _backtrack_position self = None))
  \/ (exists frontier token,
        _is_flat self = true /\ _backtrack_position self = Some (frontier, token) /\
        self' = set_backtrack_position self None /\
        setitem_column logits token (finfo_max (l_dtype logits)) = Ret logits').
Proof.
  unfold on_logits. intros H.
  destruct (_is_flat self) eqn:Hflat.
  - destruct (_backtrack_position self) as [[frontier token] |] eqn:Hpos.
    + apply bind_ret_inv in H. destruct H as [l [Hset H]].
      injection H as <- <-. right. exists frontier, token. auto.
    + injection H as <- <-. left. auto.
  - injection H as <- <-. left. auto.
Qed.

Lemma on_probs_cases (self self' : Strategy) (probs probs' : Probs) (tokens : list Z) :
  on_probs self probs tokens = Ret (self', probs') ->
  exists flat, _is_distribution_flat self probs = Ret flat /\
               self' = set_is_flat self flat /\ probs' = probs.
Proof.
  unfold on_probs. intros H.
  apply bind_ret_inv in H. destruct H as [flat [Hflat H]].
  injection H as <- <-. exists flat. auto.
Qed.

Lemma constructible_frontier (self : Strategy) :
  constructible self -> frontier_nonneg self.
Proof.
  unfold frontier_nonneg.
  induction 1 as [ct rt | self logits tokens self' logits' _ IH Hcall
                 | self probs tokens self' probs' _ IH Hcall
                 | self tokens probs self' _ IH Hcall
                 | self tokens cache self' out _ IH Hcall];
    intros frontier token Hpos.
  - discriminate.
  - apply on_logits_cases in Hcall.
    destruct Hcall as [[-> _] | [f [t [_ [_ [-> _]]]]]]; [eauto | discriminate].
  - apply on_probs_cases in Hcall. destruct Hcall as [flat [_ [-> _]]]. eauto.
  - apply on_next_token_cases in Hcall.
    destruct Hcall as [latest [preferred [Hlast [_ Hcase]]]].
    destruct Hcase as [[_ ->] | [[_ [_ ->]] | [_ [_ ->]]]]; [| eauto | eauto].
    cbn in Hpos. injection Hpos as <- _.
    apply last_item_ret_inv in Hlast. destruct Hlast as [front ->].
    rewrite length_app. simpl. lia.
  - apply backtrack_state in Hcall. subst self'. eauto.
Qed.

(** C4.  Divergence bookkeeping: for a non-empty token list whose last token
    differs from the argmax of the distribution, [on_next_token] returns with
    the keep index at [len(tokens) - 1] and the pending position at
    [(keep index, argmax token)]. *)
Theorem on_next_token_divergence (self : Strategy) (front : list Z) (sampled : Z)
        (probs : Probs) (preferred : Z) :
  argmax probs = Ret preferred ->
  sampled <> preferred ->
  exists self',
    on_next_token self (front ++ [sampled]) probs = Ret self' /\
    _keep_index self' = Z.of_nat (length (front ++ [sampled])) - 1 /\
    _backtrack_position self' = Some (_keep_index self', preferred).
Proof.
  intros Harg Hne. unfold on_next_token.
  rewrite last_item_app, Harg. cbn [bind].
  destruct (Z.eqb_spec sampled preferred) as [Heq | _]; [contradiction |].
  cbn [negb]. eexists. split; [reflexivity |]. split; reflexivity.
Qed.

Lemma on_next_token_divergence_witness :
  exists self',
    on_next_token default_strategy ([5; 9] ++ [2])
                  [9#100; 9#100; 9#100; 9#100; 9#100; 9#100; 9#100;
                   13#100; 12#100; 12#100]%Q = Ret self' /\
    _keep_index self' = Z.of_nat (length ([5; 9] ++ [2])) - 1 /\
    _backtrack_position self' = Some (_keep_index self', 7).
Proof.
  apply on_next_token_divergence; [reflexivity | discriminate].
Defined.

(** ** Forcing a logit *)

Lemma set_nth_length {A : Type} (v : A) (l : list A) : forall n,
  length (set_nth n v l) = length l.
Proof. induction l as [| x l IH]; intros [| n]; simpl; auto. Qed.

Lemma set_nth_same {A : Type} (v d : A) (l : list A) : forall n,
  (n < length l)%nat -> nth n (set_nth n v l) d = v.
Proof.
  induction l as [| x l IH]; intros [| n]; simpl; intros H; try lia; auto.
  apply IH. lia.
Qed.

Lemma set_nth_other {A : Type} (v d : A) (l : list A) : forall n j,
  j <> n -> nth j (set_nth n v l) d = nth j l d.
Proof.
  induction l as [| x l IH]; intros [| n] [| j] H; simpl; auto; try lia.
Qed.

Lemma setitem_column_in_range (t : Logits) (j : Z) (v : Q) :
  0 <= j < Z.of_nat (l_vocab t) ->
  setitem_column t j v =
    Ret (mkLogits (l_dtype t) (l_vocab t) (map (set_nth (Z.to_nat j) v) (l_rows t))).
Proof.
  intros Hj. unfold setitem_column.
  destruct (Z.leb_spec (- Z.of_nat (l_vocab t)) j); [| lia].
  destruct (Z.ltb_spec j (Z.of_nat (l_vocab t))); [| lia].
  destruct (Z.ltb_spec j 0); [lia |]. reflexivity.
Qed.

Lemma setitem_column_wf (t t' : Logits) (j : Z) (v : Q) :
  setitem_column t j v = Ret t' -> logits_wf t -> logits_wf t'.
Proof.
  unfold setitem_column, logits_wf.
  destruct (_ && _); [| discriminate].
  intros H. injection H as <-. cbn. intros Hwf.
  apply Forall_map. eapply Forall_impl; [| exact Hwf].
  intros row Hrow. rewrite set_nth_length. exact Hrow.
Qed.

(** Entries of [logits] after [logits[:, token] = v]. *)
Lemma logit_forced (t : Logits) (token : Z) (v : Q) (i j : nat) :
  logits_wf t ->
  (i < length (l_rows t))%nat -> (j < l_vocab t)%nat ->
  logit (mkLogits (l_dtype t) (l_vocab t)
                  (map (set_nth (Z.to_nat token) v) (l_rows t))) i j =
    if (j =? Z.to_nat token)%nat then v else logit t i j.
Proof.
  intros Hwf Hi Hj. unfold logit. cbn [l_rows].
  change (@nil Q) with (set_nth (Z.to_nat token) v (@nil Q)) at 1.
  rewrite map_nth.
  assert (Hrow : length (nth i (l_rows t) []) = l_vocab t).
  { unfold logits_wf in Hwf. rewrite Forall_forall in Hwf.
    apply Hwf, nth_In, Hi. }
  destruct (Nat.eqb_spec j (Z.to_nat token)) as [-> | Hne].
  - apply set_nth_same. lia.
  - apply set_nth_other, Hne.
Qed.

(** [on_logits], unfolded: what it returns in a flat, pending state whose
    token has a column. *)
Lemma on_logits_pending (self : Strategy) (logits : Logits) (tokens : list Z)
      (frontier token : Z) :
  _is_flat self = true ->
  _backtrack_position self = Some (frontier, token) ->
  0 <= token < Z.of_nat (l_vocab logits) ->
  on_logits self logits tokens =
    Ret (set_backtrack_position self None,
         mkLogits (l_dtype logits) (l_vocab logits)
                  (map (set_nth (Z.to_nat token) (finfo_max (l_dtype logits)))
                       (l_rows logits))).
Proof.
  intros Hflat Hpos Hrange. unfold on_logits. rewrite Hflat, Hpos.
  rewrite setitem_column_in_range by exact Hrange. reflexivity.
Qed.

(** C5.  Single-use force.  In a flat, pending state [on_logits] overwrites
    the column of the recorded preferred token with [finfo(dtype).max] in every
    row, keeps every other entry, the shape and the element type, and clears
    the pending position, so that a second [on_logits] right after it returns
    its logits untouched; in a state that is not flat or has nothing pending,
    [on_logits] returns state and logits untouched. *)
Theorem on_logits_single_use :
  (forall (self : Strategy) (logits : Logits) (tokens : list Z) (frontier token : Z),
      _is_flat self = true ->
      _backtrack_position self = Some (frontier, token) ->
      logits_wf logits ->
      0 <= token < Z.of_nat (l_vocab logits) ->
      exists self' logits',
        on_logits self logits tokens = Ret (self', logits') /\
        _backtrack_position self' = None /\
        _keep_index self' = _keep_index self /\
        _is_flat self' = _is_flat self /\
        l_dtype logits' = l_dtype logits /\
        l_vocab logits' = l_vocab logits /\
        length (l_rows logits') = length (l_rows logits) /\
        logits_wf logits' /\
        (forall i j, (i < length (l_rows logits))%nat -> (j < l_vocab logits)%nat ->
           logit logits' i j =
             if (j =? Z.to_nat token)%nat then finfo_max (l_dtype logits)
             else logit logits i j) /\
        (forall logits2 tokens2,
           on_logits self' logits2 tokens2 = Ret (self', logits2)))
  /\
  (forall (self : Strategy) (logits : Logits) (tokens : list Z),
      _is_flat self = false \/ _backtrack_position self = None ->
      on_logits self logits tokens = Ret (self, logits)).
Proof.
  split.
  - intros self logits tokens frontier token Hflat Hpos Hwf Hrange.
    unfold on_logits at 1. rewrite Hflat, Hpos.
    rewrite setitem_column_in_range by exact Hrange. cbn [bind].
    eexists. eexists. split; [reflexivity |].
    cbn [set_backtrack_position _backtrack_position _keep_index _is_flat
         l_dtype l_vocab l_rows].
    repeat match goal with |- _ /\ _ => split end;
      try reflexivity; try assumption.
    + apply length_map.
    + unfold logits_wf in *. cbn. apply Forall_map.
      eapply Forall_impl; [| exact Hwf].
      intros row Hrow. rewrite set_nth_length. exact Hrow.
    + intros i j Hi Hj. apply logit_forced; assumption.
    + intros logits2 tokens2. unfold on_logits. cbn.
      destruct (_is_flat self); reflexivity.
  - intros self logits tokens [H | H]; unfold on_logits; rewrite H; [reflexivity |].
    destruct (_is_flat self); reflexivity.
Qed.

Lemma on_logits_single_use_witness :
  exists self' logits',
    on_logits scenario_pending scenario_logits [5; 9] = Ret (self', logits') /\
    _backtrack_position self' = None /\
    logit logits' 0 7 = finfo_max float32 /\
    logit logits' 0 6 = (7#1)%Q /\
    on_logits self' logits' [5; 9] = Ret (self', logits').
Proof.
  destruct (proj1 on_logits_single_use scenario_pending scenario_logits [5; 9] 2 7)
    as [self' [logits' [Hcall [Hpos [_ [_ [_ [_ [_ [_ [Hent Hsecond]]]]]]]]]]].
  - reflexivity.
  - reflexivity.
  - repeat constructor.
  - cbn. lia.
  - exists self', logits'. split; [exact Hcall |]. split; [exact Hpos |].
    split; [| split].
    + rewrite (Hent 0%nat 7%nat); [reflexivity | cbn; lia | cbn; lia].
    + rewrite (Hent 0%nat 6%nat); [reflexivity | cbn; lia | cbn; lia].
    + apply Hsecond.
Defined.

(** ** Truncating the cache *)

Lemma slice_stop_le (stop : Z) (len : nat) : (slice_stop stop len <= len)%nat.
Proof. unfold slice_stop. destruct (Z.ltb_spec stop 0); lia. Qed.

Lemma slice_stop_removed (removed len : nat) :
  (0 < removed)%nat ->
  slice_stop (- Z.of_nat removed) len = (len - removed)%nat.
Proof.
  intros H. unfold slice_stop.
  destruct (Z.ltb_spec (- Z.of_nat removed) 0); lia.
Qed.

Lemma slice_seq_wf (stop : Z) (t : Layer) : layer_wf t -> layer_wf (slice_seq stop t).
Proof.
  unfold layer_wf, slice_seq. cbn. intros [Hb Hdata]. split.
  - rewrite length_map. exact Hb.
  - apply Forall_map. eapply Forall_impl; [| exact Hdata].
    intros b [Hh Hb']. cbn. split; [rewrite length_map; exact Hh |].
    apply Forall_map. eapply Forall_impl; [| exact Hb'].
    intros h [Hs Hh']. cbn. split.
    + rewrite length_firstn, Hs. pose proof (slice_stop_le stop (c_seq t)). lia.
    + rewrite Forall_forall in *. intros s Hin. apply Hh'.
      rewrite <- (firstn_skipn (slice_stop stop (c_seq t)) h).
      apply in_or_app. left. exact Hin.
Qed.

Lemma slice_seq_truncated (removed : nat) (t : Layer) :
  (0 < removed)%nat -> truncated_by removed t (slice_seq (- Z.of_nat removed) t).
Proof.
  intros H. unfold truncated_by.
  repeat match goal with |- _ /\ _ => split end; try reflexivity.
  - cbn. apply slice_stop_removed, H.
  - apply slice_seq_wf.
Qed.

Lemma Forall2_map_intro {A B : Type} (R : A -> B -> Prop) (f : A -> B) (l : list A) :
  (forall x, R x (f x)) -> Forall2 R l (map f l).
Proof. intros H. induction l; simpl; constructor; auto. Qed.

Lemma truncate_cache_truncated (removed : nat) (cache : Cache) :
  (0 < removed)%nat ->
  exists cache',
    truncate_cache (- Z.of_nat removed) (Some cache) = Some cache' /\
    Forall2 (Forall2 (truncated_by removed)) cache cache'.
Proof.
  intros H. destruct cache as [| kv cache].
  - exists []. split; [reflexivity | constructor].
  - eexists. split; [reflexivity |].
    apply Forall2_map_intro. intros pair.
    apply Forall2_map_intro. intros layer.
    apply slice_seq_truncated, H.
Qed.

(** C3, as the code has it.  A [backtrack] call in a flat state with pending
    position [(frontier, token)], [0 <= frontier < len(tokens)], returns the
    first [frontier] tokens, and every array of a supplied cache without its
    last [len(tokens) - frontier] sequence positions: of sequence length
    [frontier] when the array had one position per token; batch, head and
    feature axes and the element type are those of the input array.  Called
    without a cache it returns the same tokens. *)
Theorem backtrack_truncation (self : Strategy) (tokens : list Z) (cache : Cache)
        (frontier token : Z) :
  _is_flat self = true ->
  _backtrack_position self = Some (frontier, token) ->
  0 <= frontier < Z.of_nat (length tokens) ->
  exists tokens' cache',
    backtrack self tokens (Some cache) = Ret (self, (tokens', Some cache')) /\
    tokens' = firstn (Z.to_nat frontier) tokens /\
    Z.of_nat (length tokens') = frontier /\
    Forall2 (Forall2 (fun old new =>
               truncated_by (length tokens - Z.to_nat frontier) old new /\
               (c_seq old = length tokens -> Z.of_nat (c_seq new) = frontier)))
            cache cache' /\
    backtrack self tokens None = Ret (self, (tokens', None)).
Proof.
  intros Hflat Hpos Hrange.
  rewrite !(backtrack_pending _ _ _ _ _ Hflat Hpos).
  destruct (Z.ltb_spec frontier 0) as [Hneg | _]; [lia |].
  replace (Z.min frontier (Z.of_nat (length tokens)) - Z.of_nat (length tokens))
    with (- Z.of_nat (length tokens - Z.to_nat frontier)) by lia.
  destruct (truncate_cache_truncated (length tokens - Z.to_nat frontier) cache)
    as [cache' [Hcache Hrel]]; [lia |].
  exists (firstn (Z.to_nat frontier) tokens), cache'.
  rewrite Hcache. split; [reflexivity |]. split; [reflexivity |].
  split; [rewrite length_firstn; lia |].
  split; [| reflexivity].
  eapply Forall2_impl; [| exact Hrel].
  intros kv kv' Hkv. eapply Forall2_impl; [| exact Hkv].
  intros old new Htr. split; [exact Htr |].
  destruct Htr as [Hseq _]. intros Hlen. rewrite Hseq, Hlen. lia.
Qed.

Lemma backtrack_truncation_witness :
  exists tokens' cache',
    backtrack scenario_pending [5; 9; 2] (Some [[token_layer; token_layer]]) =
      Ret (scenario_pending, (tokens', Some cache')) /\
    tokens' = [5; 9] /\
    Forall (Forall (fun new => c_seq new = 2%nat /\ c_feat new = 2%nat)) cache'.
Proof.
  destruct (backtrack_truncation scenario_pending [5; 9; 2]
              [[token_layer; token_layer]] 2 7)
    as [tokens' [cache' [Hcall [Htok [_ [Hrel _]]]]]].
  - reflexivity.
  - reflexivity.
  - cbn. lia.
  - exists tokens', cache'. split; [exact Hcall |]. split; [exact Htok |].
    inversion Hrel as [| kv kv' r r' Hkv Hr]; subst. inversion Hr; subst.
    inversion Hkv as [| k k' r0 r0' Hk Hr0]; subst.
    inversion Hr0 as [| v v' r1 r1' Hv Hr1]; subst. inversion Hr1; subst.
    destruct Hk as [[_ [_ [_ [_ [Hkf _]]]]] Hk].
    destruct Hv as [[_ [_ [_ [_ [Hvf _]]]]] Hv].
    specialize (Hk eq_refl). specialize (Hv eq_refl).
    repeat constructor; try lia; assumption.
Defined.

(** C3, as stated, fails: the slice end is relative to the array, so a cache
    that also covers a prompt of two positions comes back with four
    positions, not with [frontier = 2]. *)
Lemma backtrack_cache_with_prompt :
  backtrack scenario_pending [5; 9; 2] (Some [[prompt_layer; prompt_layer]]) =
    Ret (scenario_pending,
         ([5; 9],
          Some [[mkLayer float16 1 1 4 2
                   [[[[7#1; 8#1]; [9#1; 1#2]; [1#1; 2#1]; [3#1; 4#1]]]]%Q;
                 mkLayer float16 1 1 4 2
                   [[[[7#1; 8#1]; [9#1; 1#2]; [1#1; 2#1]; [3#1; 4#1]]]]%Q]]))
  /\ _is_flat scenario_pending = true
  /\ _backtrack_position scenario_pending = Some (2, 7)
  /\ 4%nat <> 2%nat.
Proof. repeat split; discriminate. Qed.

(** With the frontier at the end of the list nothing is popped and the slice
    is [[:0]]: the returned arrays are empty. *)
Example backtrack_frontier_at_end :
  backtrack (mkStrategy (35 # 100) (15 # 10) true (Some (3, 7)) 3)
            [5; 9; 2] (Some [[token_layer]]) =
    Ret (mkStrategy (35 # 100) (15 # 10) true (Some (3, 7)) 3,
         ([5; 9; 2], Some [[mkLayer float16 1 1 0 2 [[[]]]]])).
Proof. reflexivity. Qed.

(** C7, as stated, fails: [backtrack] truncates and returns with the position
    still pending. *)
Lemma backtrack_still_pending :
  exists self' cache',
    backtrack scenario_pending [5; 9; 2] None = Ret (self', ([5; 9], cache')) /\
    _backtrack_position self' = Some (2, 7).
Proof. exists scenario_pending, None. split; reflexivity. Qed.

(** C7, as the code has it.  A [backtrack] call that truncates (flat state,
    position pending) returns the strategy as it was, the position still
    pending; it is the next [on_logits] call that forces the preferred token
    (its column holds the maximum of the element type in every row, every
    other entry is as before) and leaves no position pending. *)
Theorem backtrack_then_on_logits_clean (self : Strategy) (tokens : list Z)
        (cache : option Cache) (frontier token : Z) :
  _is_flat self = true ->
  _backtrack_position self = Some (frontier, token) ->
  0 <= frontier ->
  exists self' tokens' cache',
    backtrack self tokens cache = Ret (self', (tokens', cache')) /\
    tokens' = firstn (Z.to_nat frontier) tokens /\
    self' = self /\
    _backtrack_position self' = Some (frontier, token) /\
    forall logits,
      logits_wf logits ->
      0 <= token < Z.of_nat (l_vocab logits) ->
      exists self'' logits',
        on_logits self' logits tokens' = Ret (self'', logits') /\
        _backtrack_position self'' = None /\
        l_dtype logits' = l_dtype logits /\
        l_vocab logits' = l_vocab logits /\
        length (l_rows logits') = length (l_rows logits) /\
        forall i j, (i < length (l_rows logits))%nat -> (j < l_vocab logits)%nat ->
          logit logits' i j =
            if (j =? Z.to_nat token)%nat then finfo_max (l_dtype logits)
            else logit logits i j.
Proof.
  intros Hflat Hpos Hf.
  rewrite (backtrack_pending _ _ _ _ _ Hflat Hpos).
  destruct (Z.ltb_spec frontier 0) as [Hneg | _]; [lia |].
  eexists. eexists. eexists. split; [reflexivity |].
  split; [reflexivity |]. split; [reflexivity |]. split; [exact Hpos |].
  intros logits Hwf Hrange.
  rewrite (on_logits_pending _ logits _ frontier token Hflat Hpos Hrange).
  eexists. eexists. split; [reflexivity |].
  split; [reflexivity |]. split; [reflexivity |]. split; [reflexivity |].
  split; [apply length_map |].
  intros i j Hi Hj. apply logit_forced; assumption.
Qed.

Lemma backtrack_then_on_logits_clean_witness :
  exists self' self'' logits',
    backtrack scenario_pending [5; 9; 2] None = Ret (self', ([5; 9], None)) /\
    _backtrack_position self' = Some (2, 7) /\
    on_logits self' scenario_logits [5; 9] = Ret (self'', logits') /\
    _backtrack_position self'' = None /\
    logit logits' 0 7 = finfo_max float32 /\
    logit logits' 0 6 = (7 # 1)%Q.
Proof.
  destruct (backtrack_then_on_logits_clean scenario_pending [5; 9; 2] None 2 7)
    as [self' [tokens' [cache' [Hcall [Htok [Hself [Hpos Hnext]]]]]]].
  - reflexivity.
  - reflexivity.
  - lia.
  - destruct (Hnext scenario_logits) as [self'' [logits' [Hl [Hclean [_ [_ [_ Hent]]]]]]].
    + repeat constructor.
    + cbn. lia.
    + exists self', self'', logits'.
      assert (Hout : (tokens', cache') = ([5; 9], @None Cache)).
      { rewrite Hself in Hcall. vm_compute in Hcall.
        injection Hcall as Ht Hc. rewrite <- Ht, <- Hc. reflexivity. }
      injection Hout as -> ->.
      split; [exact Hcall |]. split; [exact Hpos |]. split; [exact Hl |].
      split; [exact Hclean |].
      split; [apply (Hent 0%nat 7%nat) | apply (Hent 0%nat 6%nat)]; cbn; lia.
Defined.

(** C9.  A [backtrack] call in a state that is not flat or has nothing
    pending returns tokens and cache as they came; and with no cache at all
    ([None]) a call on any state the object can be in returns, with [None]
    for the cache, the tokens cut at the frontier when the state is flat and
    pending, and the strategy unchanged. *)
Theorem backtrack_unwarranted_or_no_cache :
  (forall (self : Strategy) (tokens : list Z) (cache : option Cache),
      _is_flat self = false \/ _backtrack_position self = None ->
      backtrack self tokens cache = Ret (self, (tokens, cache)))
  /\
  (forall (self : Strategy) (tokens : list Z),
      constructible self ->
      exists tokens',
        backtrack self tokens None = Ret (self, (tokens', None)) /\
        forall frontier token,
          _is_flat self = true ->
          _backtrack_position self = Some (frontier, token) ->
          tokens' = firstn (Z.to_nat frontier) tokens).
Proof.
  split; [exact backtrack_idle |].
  intros self tokens Hc.
  pose proof (constructible_frontier self Hc) as Hnn.
  destruct (_is_flat self) eqn:Hflat.
  - destruct (_backtrack_position self) as [[frontier token] |] eqn:Hpos.
    + rewrite (backtrack_pending _ _ _ _ _ Hflat Hpos).
      destruct (Z.ltb_spec frontier 0) as [Hneg | _].
      * specialize (Hnn frontier token Hpos). lia.
      * eexists. split; [reflexivity |].
        intros f t _ Heq. injection Heq as <- <-. reflexivity.
    + rewrite backtrack_idle by (right; exact Hpos).
      eexists. split; [reflexivity |]. intros f t _ Heq. discriminate.
  - rewrite backtrack_idle by (left; exact Hflat).
    eexists. split; [reflexivity |]. intros f t Heq. discriminate.
Qed.

(** ** Scenario C *)

Lemma scenario_pending_constructible : constructible scenario_pending.
Proof.
  apply (after_on_next_token (set_is_flat default_strategy true)
                             [5; 9; 2] scenario_probs); [| reflexivity].
  apply (after_on_probs default_strategy scenario_probs [5; 9] _ scenario_probs);
    [| reflexivity].
  apply built.
Qed.

Lemma backtrack_unwarranted_or_no_cache_witness :
  backtrack default_strategy [5; 9; 2] None = Ret (default_strategy, ([5; 9; 2], None))
  /\ exists tokens',
       backtrack scenario_pending [5; 9; 2] None = Ret (scenario_pending, (tokens', None))
       /\ tokens' = [5; 9].
Proof.
  split.
  - apply (proj1 backtrack_unwarranted_or_no_cache). left. reflexivity.
  - destruct (proj2 backtrack_unwarranted_or_no_cache scenario_pending [5; 9; 2]
                    scenario_pending_constructible) as [tokens' [Hcall Hcut]].
    exists tokens'. split; [exact Hcall |].
    apply (Hcut 2 7); reflexivity.
Defined.

(** C1, as stated, fails at its last step: the [on_logits] call clears the
    pending position, so a [backtrack] call made after it returns tokens and
    cache as they came. *)
Lemma scenario_c_backtrack_after_on_logits :
  exists s0 s1 s2 logits',
    on_probs scenario_clean scenario_probs [5; 9] = Ret (s0, scenario_probs) /\
    _is_flat s0 = true /\
    on_next_token s0 [5; 9; 2] scenario_probs = Ret s1 /\
    _keep_index s1 = 2 /\
    _backtrack_position s1 = Some (2, 7) /\
    on_logits s1 scenario_logits [5; 9; 2] = Ret (s2, logits') /\
    logit logits' 0 7 = finfo_max float32 /\
    backtrack s2 [5; 9; 2] (Some [[token_layer; token_layer]]) =
      Ret (s2, ([5; 9; 2], Some [[token_layer; token_layer]])).
Proof.
  do 4 eexists.
  split; [reflexivity |]. split; [reflexivity |]. split; [reflexivity |].
  split; [reflexivity |]. split; [reflexivity |]. split; [reflexivity |].
  split; reflexivity.
Qed.

(** C1, as the code has it.  From a clean state, with tokens [[5, 9, 2]], a
    distribution whose argmax is token 7 and a flat verdict: [on_next_token]
    sets the keep index to 2 and the pending position to [(2, 7)]; a
    [backtrack] call made next, before the following [on_logits], returns
    tokens [[5, 9]] and every cache array one position shorter (two positions
    if it had three); the following [on_logits] sets token 7's logit to the
    maximum of the element type in every row and clears the position; a
    [backtrack] call after that [on_logits] returns its inputs. *)
Theorem scenario_c (self : Strategy) (probs : Probs) (logits : Logits) (cache : Cache) :
  _backtrack_position self = None ->
  _is_distribution_flat self probs = Ret true ->
  argmax probs = Ret 7 ->
  logits_wf logits ->
  (7 < l_vocab logits)%nat ->
  exists s0 s1 s2 cache' logits',
    on_probs self probs [5; 9] = Ret (s0, probs) /\
    on_next_token s0 [5; 9; 2] probs = Ret s1 /\
    _keep_index s1 = 2 /\
    _backtrack_position s1 = Some (2, 7) /\
    backtrack s1 [5; 9; 2] (Some cache) = Ret (s1, ([5; 9], Some cache')) /\
    Forall2 (Forall2 (fun old new =>
               truncated_by 1 old new /\ (c_seq old = 3%nat -> c_seq new = 2%nat)))
            cache cache' /\
    on_logits s1 logits [5; 9] = Ret (s2, logits') /\
    (forall i, (i < length (l_rows logits))%nat ->
       logit logits' i 7 = finfo_max (l_dtype logits)) /\
    _backtrack_position s2 = None /\
    backtrack s2 [5; 9] (Some cache') = Ret (s2, ([5; 9], Some cache')).
Proof.
  intros Hclean Hflat Harg Hwf Hvocab.
  set (s0 := set_is_flat self true).
  set (s1 := set_backtrack_position (set_keep_index s0 2) (Some (2, 7))).
  assert (Hnext : on_next_token s0 [5; 9; 2] probs = Ret s1).
  { unfold on_next_token. rewrite Harg. reflexivity. }
  destruct (truncate_cache_truncated 1 cache) as [cache' [Hcache Hrel]]; [lia |].
  assert (Hback : backtrack s1 [5; 9; 2] (Some cache) = Ret (s1, ([5; 9], Some cache'))).
  { rewrite (backtrack_pending s1 [5; 9; 2] (Some cache) 2 7 eq_refl eq_refl).
    change (Ret (s1, ([5; 9], truncate_cache (- Z.of_nat 1) (Some cache)))
            = Ret (s1, ([5; 9], Some cache'))).
    rewrite Hcache. reflexivity. }
  set (s2 := set_backtrack_position s1 None).
  set (logits' := mkLogits (l_dtype logits) (l_vocab logits)
                           (map (set_nth (Z.to_nat 7) (finfo_max (l_dtype logits)))
                                (l_rows logits))).
  assert (Hlog : on_logits s1 logits [5; 9] = Ret (s2, logits')).
  { apply (on_logits_pending s1 logits [5; 9] 2 7); [reflexivity | reflexivity | lia]. }
  exists s0, s1, s2, cache', logits'.
  split; [unfold on_probs; rewrite Hflat; reflexivity |].
  split; [exact Hnext |]. split; [reflexivity |]. split; [reflexivity |].
  split; [exact Hback |].
  split.
  { eapply Forall2_impl; [| exact Hrel].
    intros kv kv' Hkv. eapply Forall2_impl; [| exact Hkv].
    intros old new Htr. split; [exact Htr |].
    destruct Htr as [Hseq _]. intros H3. rewrite Hseq, H3. reflexivity. }
  split; [exact Hlog |].
  split.
  { intros i Hi. unfold logits'.
    rewrite (logit_forced logits 7 _ i 7%nat Hwf Hi Hvocab). reflexivity. }
  split; [reflexivity |].
  apply backtrack_idle. right. reflexivity.
Qed.

Lemma scenario_c_witness :
  exists s0 s1 s2 cache' logits',
    on_probs scenario_clean scenario_probs [5; 9] = Ret (s0, scenario_probs) /\
    on_next_token s0 [5; 9; 2] scenario_probs = Ret s1 /\
    _keep_index s1 = 2 /\
    _backtrack_position s1 = Some (2, 7) /\
    backtrack s1 [5; 9; 2] (Some [[token_layer; token_layer]]) =
      Ret (s1, ([5; 9], Some cache')) /\
    on_logits s1 scenario_logits [5; 9] = Ret (s2, logits') /\
    logit logits' 0 7 = finfo_max float32 /\
    backtrack s2 [5; 9] (Some cache') = Ret (s2, ([5; 9], Some cache')).
Proof.
  destruct (scenario_c scenario_clean scenario_probs scenario_logits
                       [[token_layer; token_layer]])
    as [s0 [s1 [s2 [cache' [logits' H]]]]].
  - reflexivity.
  - reflexivity.
  - reflexivity.
  - repeat constructor.
  - cbn. lia.
  - destruct H as [H1 [H2 [H3 [H4 [H5 [_ [H7 [H8 [_ H10]]]]]]]]].
    exists s0, s1, s2, cache', logits'.
    repeat match goal with |- _ /\ _ => split end; try assumption.
    apply (H8 0%nat). cbn. lia.
Defined.

(** ** Invariants of the host protocol *)

Lemma host_step_cases (h h' : host) (c : call) :
  host_step h c h' ->
  (exists logits self' logits',
      c = CallLogits logits /\
      (h_phase h = ExpectLogits \/ h_phase h = MayBacktrack) /\
      on_logits (h_strategy h) logits (h_tokens h) = Ret (self', logits') /\
      h' = mkHost self' (h_tokens h) ExpectProbs)
  \/ (exists probs self',
      c = CallProbs probs /\ h_phase h = ExpectProbs /\
      on_probs (h_strategy h) probs (h_tokens h) = Ret (self', probs) /\
      h' = mkHost self' (h_tokens h) (ExpectSample probs))
  \/ (exists token probs,
      c = Sample token /\ h_phase h = ExpectSample probs /\
      h' = mkHost (h_strategy h) (h_tokens h ++ [token]) (ExpectNextToken probs))
  \/ (exists probs self',
      c = CallNextToken /\ h_phase h = ExpectNextToken probs /\
      on_next_token (h_strategy h) (h_tokens h) probs = Ret self' /\
      h' = mkHost self' (h_tokens h) MayBacktrack)
  \/ (exists cache self' tokens' cache',
      c = CallBacktrack cache /\ h_phase h = MayBacktrack /\
      backtrack (h_strategy h) (h_tokens h) cache = Ret (self', (tokens', cache')) /\
      h' = mkHost self' tokens' ExpectLogits).
Proof.
  unfold host_step, host_call. intros H.
  destruct c as [logits | probs | token | | cache].
  - left.
    assert (Hph : h_phase h = ExpectLogits \/ h_phase h = MayBacktrack)
      by (destruct (h_phase h); try discriminate; auto).
    assert (Hb : bind (on_logits (h_strategy h) logits (h_tokens h))
                      (fun r => Ret (mkHost (fst r) (h_tokens h) ExpectProbs)) = Ret h')
      by (destruct (h_phase h); try discriminate; congruence).
    apply bind_ret_inv in Hb. destruct Hb as [[self' logits'] [Hcall Hret]].
    injection Hret as <-. exists logits, self', logits'. auto.
  - right; left. destruct (h_phase h) eqn:Hph; try discriminate.
    injection H as H. apply bind_ret_inv in H.
    destruct H as [[self' probs'] [Hcall Hret]]. injection Hret as <-.
    pose proof (on_probs_cases _ _ _ _ _ Hcall) as [flat [_ [_ ->]]].
    exists probs, self'. auto.
  - right; right; left. destruct (h_phase h) eqn:Hph; try discriminate.
    injection H as <-. exists token, probs. auto.
  - right; right; right; left. destruct (h_phase h) eqn:Hph; try discriminate.
    injection H as H. apply bind_ret_inv in H.
    destruct H as [self' [Hcall Hret]]. injection Hret as <-.
    exists probs, self'. auto.
  - right; right; right; right. destruct (h_phase h) eqn:Hph; try discriminate.
    injection H as H. apply bind_ret_inv in H.
    destruct H as [[self' [tokens' cache']] [Hcall Hret]]. injection Hret as <-.
    exists cache, self', tokens', cache'. auto.
Qed.

Lemma host_inv_init (ct rt : Q) : host_inv (host_init ct rt).
Proof.
  unfold host_inv, keep, pending, token_count. cbn.
  split; [lia |]. split; [lia |]. discriminate.
Qed.

Lemma host_inv_step (h h' : host) (c : call) :
  host_inv h -> host_step h c h' -> host_inv h'.
Proof.
  unfold host_inv, keep, pending, token_count, get_keep_index.
  intros [Hnn [Hle Hfr]] Hstep.
  destruct (host_step_cases _ _ _ Hstep)
    as [[logits [self' [logits' [_ [Hph [Hcall ->]]]]]]
       | [[probs [self' [_ [Hph [Hcall ->]]]]]
         | [[token [probs [_ [Hph ->]]]]
           | [[probs [self' [_ [Hph [Hcall ->]]]]]
             | [cache [self' [tokens' [cache' [_ [Hph [Hcall ->]]]]]]]]]]];
    cbn [h_strategy h_tokens h_phase].
  - assert (Hle' : _keep_index (h_strategy h) <= Z.of_nat (length (h_tokens h)))
      by (destruct Hph as [Hph | Hph]; rewrite Hph in Hle; exact Hle).
    destruct (on_logits_cases _ _ _ _ _ Hcall)
      as [[-> _] | [f [t [_ [_ [-> _]]]]]]; cbn; auto.
    split; [exact Hnn |]. split; [exact Hle' |]. discriminate.
  - rewrite Hph in Hle.
    destruct (on_probs_cases _ _ _ _ _ Hcall) as [flat [_ [-> _]]]. cbn. auto.
  - rewrite Hph in Hle. rewrite length_app. cbn [length].
    split; [exact Hnn |]. split; [lia | exact Hfr].
  - rewrite Hph in Hle.
    destruct (on_next_token_cases _ _ _ _ Hcall)
      as [latest [preferred [_ [_ [[_ ->] | [[_ [Hnone ->]] | [_ [_ ->]]]]]]]]; cbn.
    + split; [lia |]. split; [lia |]. intros f t Heq. congruence.
    + split; [lia |]. split; [lia |]. intros f t Heq. congruence.
    + split; [exact Hnn |]. split; [lia | exact Hfr].
  - rewrite Hph in Hle.
    pose proof (backtrack_state _ _ _ _ _ Hcall) as ->.
    split; [exact Hnn |]. split; [| exact Hfr].
    destruct (_is_flat (h_strategy h)) eqn:Hflat.
    + destruct (_backtrack_position (h_strategy h)) as [[f t] |] eqn:Hpos.
      * rewrite (backtrack_pending _ _ _ _ _ Hflat Hpos) in Hcall.
        destruct (f <? 0); [discriminate |].
        injection Hcall as <- _. specialize (Hfr f t eq_refl).
        rewrite length_firstn. lia.
      * rewrite backtrack_idle in Hcall by (right; exact Hpos).
        injection Hcall as <- _. exact Hle.
    + rewrite backtrack_idle in Hcall by (left; exact Hflat).
      injection Hcall as <- _. exact Hle.
Qed.

Lemma reachable_inv (ct rt : Q) (h : host) : reachable ct rt h -> host_inv h.
Proof.
  induction 1 as [| h c h' _ IH Hstep]; [apply host_inv_init |].
  eapply host_inv_step; eassumption.
Qed.

Lemma run_reachable (ct rt : Q) (calls : list call) : forall h h',
  reachable ct rt h -> run h calls = Some (Ret h') -> reachable ct rt h'.
Proof.
  induction calls as [| c calls IH]; intros h h' Hr Hrun; cbn in Hrun.
  - injection Hrun as <-. exact Hr.
  - destruct (host_call h c) as [[h1 | e |] |] eqn:Hcall; try discriminate.
    apply (IH h1); [| exact Hrun].
    eapply reach_step; [exact Hr | exact Hcall].
Qed.

(** C8.  In every state the host reaches from a freshly built strategy and
    an empty token list by calls in the prescribed order, the keep index is
    at most the length of the token list. *)
Theorem keep_index_le_length (ct rt : Q) (h : host) :
  reachable ct rt h -> keep h <= token_count h.
Proof.
  intros Hr. destruct (reachable_inv _ _ _ Hr) as [_ [Hle _]].
  destruct (h_phase h); lia.
Qed.

Lemma keep_index_le_length_witness :
  run (host_init (35 # 100) (15 # 10)) backtracked_run = Some (Ret backtracked_host) /\
  keep backtracked_host <= token_count backtracked_host.
Proof.
  split; [reflexivity |].
  apply (keep_index_le_length (35 # 100) (15 # 10)).
  apply (run_reachable _ _ backtracked_run (host_init (35 # 100) (15 # 10)));
    [apply reach_init | reflexivity].
Defined.

(** C6, as stated, fails in its second half: a second divergence while a
    position is pending moves the keep index up (here from 0 to 1). *)
Lemma keep_index_rises_while_pending :
  run (host_init (35 # 100) (15 # 10)) twice_diverging_run =
    Some (Ret twice_diverging_host) /\
  pending twice_diverging_host = Some (0, 0) /\
  keep twice_diverging_host = 0 /\
  exists h',
    host_step twice_diverging_host CallNextToken h' /\
    pending h' = Some (1, 0) /\
    keep h' = 1.
Proof.
  split; [reflexivity |]. split; [reflexivity |]. split; [reflexivity |].
  eexists. split; [reflexivity |]. split; reflexivity.
Qed.

(** C6, as the code has it.  Along every run in the prescribed order no call
    lowers the keep index, and [backtrack] leaves it as it is; while a
    position is pending the keep index changes only at an [on_next_token]
    call whose sampled token differs from the argmax, which moves keep index
    and pending position to the index of that token. *)
Theorem keep_index_monotone (ct rt : Q) (h h' : host) (c : call) :
  reachable ct rt h ->
  host_step h c h' ->
  keep h <= keep h' /\
  (forall cache, c = CallBacktrack cache -> keep h' = keep h) /\
  (pending h <> None -> keep h' <> keep h ->
   exists probs sampled preferred,
     c = CallNextToken /\
     h_phase h = ExpectNextToken probs /\
     last_item (h_tokens h) = Ret sampled /\
     argmax probs = Ret preferred /\
     sampled <> preferred /\
     keep h' = token_count h - 1 /\
     pending h' = Some (keep h', preferred)).
Proof.
  intros Hr Hstep.
  destruct (reachable_inv _ _ _ Hr) as [Hnn [Hle Hfr]].
  unfold keep, pending, token_count, get_keep_index in *.
  destruct (host_step_cases _ _ _ Hstep)
    as [[logits [self' [logits' [-> [Hph [Hcall ->]]]]]]
       | [[probs [self' [-> [Hph [Hcall ->]]]]]
         | [[token [probs [-> [Hph ->]]]]
           | [[probs [self' [-> [Hph [Hcall ->]]]]]
             | [cache [self' [tokens' [cache' [-> [Hph [Hcall ->]]]]]]]]]]];
    cbn [h_strategy h_tokens h_phase].
  - destruct (on_logits_cases _ _ _ _ _ Hcall)
      as [[-> _] | [f [t [_ [_ [-> _]]]]]]; cbn;
      (split; [lia |]); (split; [discriminate |]); contradiction.
  - destruct (on_probs_cases _ _ _ _ _ Hcall) as [flat [_ [-> _]]]; cbn.
    split; [lia |]. split; [discriminate |]. contradiction.
  - split; [lia |]. split; [discriminate |]. contradiction.
  - rewrite Hph in Hle.
    destruct (on_next_token_cases _ _ _ _ Hcall)
      as [latest [preferred [Hlast [Harg [[Hne ->] | [[_ [Hnone ->]] | [_ [_ ->]]]]]]]];
      cbn.
    + split; [lia |]. split; [discriminate |]. intros _ _.
      exists probs, latest, preferred. auto 10.
    + split; [lia |]. split; [discriminate |]. intros Hp. contradiction.
    + split; [lia |]. split; [discriminate |]. contradiction.
  - pose proof (backtrack_state _ _ _ _ _ Hcall) as ->.
    split; [lia |]. split; [reflexivity |]. contradiction.
Qed.

Lemma keep_index_monotone_witness :
  exists h',
    host_step twice_diverging_host CallNextToken h' /\
    keep twice_diverging_host <= keep h' /\
    pending h' = Some (keep h', 0).
Proof.
  exists (mkHost (mkStrategy (35 # 100) (15 # 10) false (Some (1, 0)) 1) [1; 1]
                 MayBacktrack).
  split; [reflexivity |].
  destruct (keep_index_monotone (35 # 100) (15 # 10) twice_diverging_host
              (mkHost (mkStrategy (35 # 100) (15 # 10) false (Some (1, 0)) 1) [1; 1]
                      MayBacktrack) CallNextToken)
    as [Hle [_ Hmove]].
  - apply (run_reachable _ _ twice_diverging_run (host_init (35 # 100) (15 # 10)));
      [apply reach_init | reflexivity].
  - reflexivity.
  - split; [exact Hle | reflexivity].
Defined.

(** ** A correction that waits for a flat step *)

Lemma is_flat_thresholds (self : Strategy) (probs : Probs) :
  _is_distribution_flat self probs =
  _is_distribution_flat (init (cumulative_prob_threshold self) (ratio_threshold self))
                        probs.
Proof. reflexivity. Qed.

Lemma run_app (l1 l2 : list call) : forall h h1,
  run h l1 = Some (Ret h1) -> run h (l1 ++ l2) = run h1 l2.
Proof.
  induction l1 as [| c l1 IH]; intros h h1 H; cbn in *.
  - injection H as <-. reflexivity.
  - destruct (host_call h c) as [[h' | e |] |]; try discriminate.
    apply IH, H.
Qed.

Lemma step_frozen (ct rt : Q) (frontier token : Z) (verdict : bool) (h : host) (x : step) :
  frozen ct rt frontier token false h ->
  0 <= frontier ->
  matching_step ct rt verdict x ->
  exists h', run h (step_calls x) = Some (Ret h') /\
             frozen ct rt frontier token verdict h'.
Proof.
  intros [Hph [Hct [Hrt [Hflat [Hpos Hkeep]]]]] Hnn [Hverdict Harg].
  destruct h as [self tokens ph]. destruct x as [logits probs sampled bt].
  unfold pending, keep, get_keep_index in *. cbn [h_strategy h_tokens h_phase] in *.
  cbn [s_probs s_sampled] in *.
  set (self1 := set_is_flat self verdict).
  set (h4 := mkHost self1 (tokens ++ [sampled]) MayBacktrack).
  assert (H4 : run (mkHost self tokens ph)
                   [CallLogits logits; CallProbs probs; Sample sampled; CallNextToken]
               = Some (Ret h4)).
  { assert (Hl : on_logits self logits tokens = Ret (self, logits))
      by (unfold on_logits; rewrite Hflat; reflexivity).
    assert (Hp : on_probs self probs tokens = Ret (self1, probs)).
    { unfold on_probs. rewrite is_flat_thresholds, Hct, Hrt, Hverdict. reflexivity. }
    assert (Hn : on_next_token self1 (tokens ++ [sampled]) probs = Ret self1).
    { unfold on_next_token. rewrite last_item_app, Harg. cbn [bind].
      rewrite Z.eqb_refl. cbn [negb]. unfold self1. cbn. rewrite Hpos. reflexivity. }
    cbn [run]. unfold host_call at 1. cbn [h_phase h_strategy h_tokens].
    assert (Hfirst : match ph with
                     | ExpectLogits | MayBacktrack =>
                         Some (r <- on_logits self logits tokens ;;
                               Ret (mkHost (fst r) tokens ExpectProbs))
                     | _ => None
                     end = Some (Ret (mkHost self tokens ExpectProbs)))
      by (destruct Hph as [-> | ->]; rewrite Hl; reflexivity).
    rewrite Hfirst.
    unfold host_call at 1. cbn [h_phase h_strategy h_tokens]. rewrite Hp. cbn [bind fst snd].
    unfold host_call at 1. cbn [h_phase h_strategy h_tokens].
    unfold host_call at 1. cbn [h_phase h_strategy h_tokens]. rewrite Hn. reflexivity. }
  assert (Hfz : frozen ct rt frontier token verdict h4).
  { unfold frozen, pending, keep, get_keep_index. cbn. auto 10. }
  unfold step_calls. cbn [s_logits s_probs s_sampled s_backtrack].
  rewrite (run_app _ _ _ _ H4).
  destruct bt as [cache |]; [| exists h4; split; [reflexivity | exact Hfz]].
  cbn [run]. unfold host_call. cbn [h_phase h4 h_strategy h_tokens].
  destruct verdict.
  - rewrite (backtrack_pending self1 _ _ frontier token); [| reflexivity | exact Hpos].
    destruct (Z.ltb_spec frontier 0); [lia |]. cbn [bind fst snd].
    eexists. split; [reflexivity |].
    unfold frozen, pending, keep, get_keep_index. cbn. auto 10.
  - rewrite backtrack_idle by (left; reflexivity). cbn [bind fst snd].
    eexists. split; [reflexivity |].
    unfold frozen, pending, keep, get_keep_index. cbn. auto 10.
Qed.

Lemma steps_frozen (ct rt : Q) (frontier token : Z) (steps : list step) : forall h,
  frozen ct rt frontier token false h ->
  0 <= frontier ->
  Forall (matching_step ct rt false) steps ->
  exists h', run h (flat_map step_calls steps) = Some (Ret h') /\
             frozen ct rt frontier token false h'.
Proof.
  induction steps as [| x steps IH]; intros h Hfz Hnn Hall.
  - exists h. split; [reflexivity | exact Hfz].
  - inversion Hall as [| x' steps' Hx Hrest]; subst.
    destruct (step_frozen _ _ _ _ _ _ _ Hfz Hnn Hx) as [h1 [Hrun1 Hfz1]].
    destruct (IH h1 Hfz1 Hnn Hrest) as [h2 [Hrun2 Hfz2]].
    exists h2. split; [| exact Hfz2].
    cbn [flat_map]. rewrite (run_app _ _ _ _ Hrun1). exact Hrun2.
Qed.

(** C10.  A divergence recorded at a step whose verdict is not flat leaves
    position [(len(tokens) - 1, argmax)] pending and the keep index at that
    frontier; both are still so after any number of following steps whose
    sampled token is the argmax and whose verdict is not flat, and after one
    more such step whose verdict is flat; the [on_logits] call after that
    step, the first one preceded by a flat verdict, writes the maximum of the
    element type into the column of the token recorded at the divergence. *)
Theorem pending_position_waits_for_flat
        (h : host) (probs0 : Probs) (front : list Z) (sampled preferred : Z)
        (steps : list step) (final : step) :
  h_phase h = ExpectNextToken probs0 ->
  h_tokens h = front ++ [sampled] ->
  _is_flat (h_strategy h) = false ->
  argmax probs0 = Ret preferred ->
  sampled <> preferred ->
  Forall (matching_step (cumulative_prob_threshold (h_strategy h))
                        (ratio_threshold (h_strategy h)) false) steps ->
  matching_step (cumulative_prob_threshold (h_strategy h))
                (ratio_threshold (h_strategy h)) true final ->
  exists h0 h1 h2,
    host_step h CallNextToken h0 /\
    pending h0 = Some (Z.of_nat (length front), preferred) /\
    keep h0 = Z.of_nat (length front) /\
    run h0 (flat_map step_calls steps) = Some (Ret h1) /\
    pending h1 = pending h0 /\
    keep h1 = keep h0 /\
    _is_flat (h_strategy h1) = false /\
    run h1 (step_calls final) = Some (Ret h2) /\
    pending h2 = pending h0 /\
    keep h2 = keep h0 /\
    _is_flat (h_strategy h2) = true /\
    forall logits,
      logits_wf logits ->
      0 <= preferred < Z.of_nat (l_vocab logits) ->
      exists self' logits',
        on_logits (h_strategy h2) logits (h_tokens h2) = Ret (self', logits') /\
        _backtrack_position self' = None /\
        forall i, (i < length (l_rows logits))%nat ->
          logit logits' i (Z.to_nat preferred) = finfo_max (l_dtype logits).
Proof.
  intros Hph Htok Hflat Harg Hne Hsteps Hfinal.
  set (ct := cumulative_prob_threshold (h_strategy h)) in *.
  set (rt := ratio_threshold (h_strategy h)) in *.
  set (frontier := Z.of_nat (length front)).
  set (self0 := set_backtrack_position (set_keep_index (h_strategy h) frontier)
                                       (Some (frontier, preferred))).
  assert (Hcall : on_next_token (h_strategy h) (front ++ [sampled]) probs0 = Ret self0).
  { unfold on_next_token. rewrite last_item_app, Harg. cbn [bind].
    destruct (Z.eqb_spec sampled preferred); [contradiction |].
    cbn [negb]. rewrite length_app. cbn [length].
    replace (Z.of_nat (length front + 1) - 1) with frontier
      by (unfold frontier; lia).
    reflexivity. }
  set (h0 := mkHost self0 (h_tokens h) MayBacktrack).
  assert (Hstep0 : host_step h CallNextToken h0).
  { unfold host_step, host_call. rewrite Hph, Htok, Hcall. cbn [bind].
    unfold h0. rewrite Htok. reflexivity. }
  assert (Hfz0 : frozen ct rt frontier preferred false h0).
  { unfold frozen, pending, keep, get_keep_index. cbn. auto 10. }
  assert (Hnn : 0 <= frontier) by (unfold frontier; lia).
  destruct (steps_frozen _ _ _ _ steps h0 Hfz0 Hnn Hsteps) as [h1 [Hrun1 Hfz1]].
  destruct (step_frozen _ _ _ _ _ _ final Hfz1 Hnn Hfinal) as [h2 [Hrun2 Hfz2]].
  destruct Hfz1 as [_ [_ [_ [Hflat1 [Hpos1 Hkeep1]]]]].
  destruct Hfz2 as [_ [_ [_ [Hflat2 [Hpos2 Hkeep2]]]]].
  exists h0, h1, h2.
  assert (Hp0 : pending h0 = Some (frontier, preferred)) by reflexivity.
  assert (Hkk0 : keep h0 = frontier) by reflexivity.
  repeat match goal with |- _ /\ _ => split end;
    try assumption; try congruence.
  intros logits Hwf Hrange.
  rewrite (on_logits_pending _ logits (h_tokens h2) frontier preferred
                             Hflat2 Hpos2 Hrange).
  eexists. eexists. split; [reflexivity |]. split; [reflexivity |].
  intros i Hi.
  rewrite (logit_forced logits preferred _ i (Z.to_nat preferred) Hwf Hi) by lia.
  rewrite Nat.eqb_refl. reflexivity.
Qed.

Lemma pending_position_waits_for_flat_witness :
  exists h0 h1 h2 self' logits',
    host_step twice_diverging_host CallNextToken h0 /\
    pending h0 = Some (1, 0) /\
    run h0 (flat_map step_calls [matching_peaked_step; matching_peaked_step])
      = Some (Ret h1) /\
    pending h1 = Some (1, 0) /\ keep h1 = 1 /\
    run h1 (step_calls matching_flat_step) = Some (Ret h2) /\
    pending h2 = Some (1, 0) /\ keep h2 = 1 /\
    on_logits (h_strategy h2) scenario_logits (h_tokens h2) = Ret (self', logits') /\
    logit logits' 0 0 = finfo_max float32.
Proof.
  destruct (pending_position_waits_for_flat twice_diverging_host peaked_probs [1] 1 0
              [matching_peaked_step; matching_peaked_step] matching_flat_step)
    as [h0 [h1 [h2 [Hs0 [Hp0 [Hk0 [Hr1 [Hp1 [Hk1 [_ [Hr2 [Hp2 [Hk2 [_ Hforce]]]]]]]]]]]]]].
  - reflexivity.
  - reflexivity.
  - reflexivity.
  - reflexivity.
  - discriminate.
  - repeat constructor.
  - split; reflexivity.
  - destruct (Hforce scenario_logits) as [self' [logits' [Hl [_ Hent]]]].
    + repeat constructor.
    + cbn. lia.
    + exists h0, h1, h2, self', logits'. cbn in Hp0, Hk0.
      repeat match goal with |- _ /\ _ => split end;
        try assumption; try congruence.
      apply (Hent 0%nat). cbn. lia.
Defined.

(** ** The flatness classifier *)

Local Open Scope Q_scope.

Lemma sort_descending_perm (probs : list Q) : Permutation probs (sort_descending probs).
Proof. apply QSort.Permuted_sort. Qed.

Lemma sort_descending_sorted (probs : list Q) :
  StronglySorted (fun x y => y <= x) (sort_descending probs).
Proof.
  apply Sorted_StronglySorted.
  - intros x y z Hxy Hyz. eapply Qle_trans; eassumption.
  - pose proof (QSort.Sorted_sort probs) as H. unfold sort_descending.
    induction H as [| x l Hl IH Hhd]; constructor; [exact IH |].
    destruct Hhd as [| y l Hxy]; constructor.
    apply Qle_bool_iff. exact Hxy.
Qed.

Lemma sort_descending_nonneg (probs : list Q) :
  nonneg probs -> nonneg (sort_descending probs).
Proof.
  unfold nonneg. intros H.
  eapply Permutation_Forall; [apply sort_descending_perm | exact H].
Qed.

Lemma sort_descending_length (probs : list Q) :
  length (sort_descending probs) = length probs.
Proof. symmetry. apply Permutation_length, sort_descending_perm. Qed.

Lemma cumsum_from_length (l : list Q) : forall acc,
  length (cumsum_from acc l) = length l.
Proof. induction l as [| x l IH]; intros acc; simpl; auto. Qed.

Lemma cumsum_length (l : list Q) : length (cumsum l) = length l.
Proof. destruct l; simpl; [| rewrite cumsum_from_length]; reflexivity. Qed.

Lemma cumsum_from_nth (l : list Q) : forall acc i,
  (i < length l)%nat ->
  nth i (cumsum_from acc l) 0 == acc + Qsum (firstn (S i) l).
Proof.
  induction l as [| x l IH]; intros acc i Hi; simpl in Hi; [lia |].
  destruct i as [| i].
  - cbn. ring.
  - cbn [cumsum_from nth]. rewrite IH by lia.
    change (Qsum (firstn (S (S i)) (x :: l))) with (x + Qsum (firstn (S i) l)).
    ring.
Qed.

(** Entry [i] of the running sum is the sum of the first [i + 1] entries. *)
Lemma cumsum_nth (l : list Q) (i : nat) :
  (i < length l)%nat -> nth i (cumsum l) 0 == Qsum (firstn (S i) l).
Proof.
  destruct l as [| x l]; simpl; intros Hi; [lia |].
  destruct i as [| i].
  - cbn. ring.
  - cbn [nth]. rewrite cumsum_from_nth by lia.
    change (Qsum (firstn (S (S i)) (x :: l))) with (x + Qsum (firstn (S i) l)).
    reflexivity.
Qed.

Lemma Qsum_nonneg (l : list Q) : nonneg l -> 0 <= Qsum l.
Proof.
  induction 1 as [| x l Hx _ IH]; [apply Qle_refl |].
  change (0 <= x + Qsum l).
  apply (Qle_trans _ (0 + 0)); [discriminate |].
  apply Qplus_le_compat; assumption.
Qed.

Lemma nonneg_firstn (l : list Q) (k : nat) : nonneg l -> nonneg (firstn k l).
Proof.
  unfold nonneg. rewrite !Forall_forall. intros H x Hin. apply H.
  rewrite <- (firstn_skipn k l). apply in_or_app. left. exact Hin.
Qed.

Lemma Qsum_prefix_mono (l : list Q) : nonneg l -> forall i j,
  (i <= j)%nat -> Qsum (firstn i l) <= Qsum (firstn j l).
Proof.
  induction 1 as [| x l Hx Hl IH]; intros i j Hij.
  - rewrite !firstn_nil. apply Qle_refl.
  - destruct i as [| i].
    + cbn [firstn Qsum fold_right]. apply Qsum_nonneg.
      apply nonneg_firstn. constructor; assumption.
    + destruct j as [| j]; [lia |].
      cbn [firstn Qsum fold_right]. apply Qplus_le_compat; [apply Qle_refl |].
      apply IH. lia.
Qed.

Lemma cumsum_ascending (l : list Q) : nonneg l -> ascending (cumsum l).
Proof.
  intros Hl i j Hij. rewrite cumsum_length in Hij.
  rewrite !cumsum_nth by lia. apply Qsum_prefix_mono; [exact Hl | lia].
Qed.

Section LowerBound.
Variable seq : list Q.
Variable val : Q.
Hypothesis seq_ascending : ascending seq.

(** The bisection keeps entries below [val] to the left of [start] and
    entries at or above [val] from [stop] on. *)
Lemma lower_bound_spec (fuel : nat) : forall start stop,
  (start <= stop <= length seq)%nat ->
  (stop - start <= fuel)%nat ->
  (forall i, (i < start)%nat -> nth i seq 0 < val) ->
  (forall i, (stop <= i < length seq)%nat -> val <= nth i seq 0) ->
  (start <= lower_bound fuel seq val start stop <= stop)%nat /\
  (forall i, (i < lower_bound fuel seq val start stop)%nat -> nth i seq 0 < val) /\
  (forall i, (lower_bound fuel seq val start stop <= i < length seq)%nat ->
             val <= nth i seq 0).
Proof.
  induction fuel as [| fuel IH]; intros start stop Hbounds Hfuel Hlow Hhigh.
  - cbn. assert (stop = start) as -> by lia. auto.
  - cbn [lower_bound].
    destruct (Nat.ltb_spec start stop) as [Hlt | Hge].
    + set (mid := (start + (stop - start) / 2)%nat).
      assert (Hmid : (start <= mid < stop)%nat).
      { pose proof (Nat.div_lt (stop - start) 2). unfold mid. lia. }
      destruct (Qle_bool val (nth mid seq 0)) eqn:Hcmp.
      * apply Qle_bool_iff in Hcmp.
        destruct (IH start mid) as [Hr [Hl Hh]]; try lia; auto.
        { intros i Hi. eapply Qle_trans; [exact Hcmp |].
          apply seq_ascending. lia. }
        split; [lia | auto].
      * assert (Hbelow : nth mid seq 0 < val).
        { apply Qnot_le_lt. intros Hle. apply Qle_bool_iff in Hle. congruence. }
        destruct (IH (S mid) stop) as [Hr [Hl Hh]]; try lia; auto.
        { intros i Hi. eapply Qle_lt_trans; [| exact Hbelow].
          apply seq_ascending. lia. }
        split; [lia | auto].
    + assert (stop = start) as -> by lia. auto.
Qed.

Lemma searchsorted_spec :
  (searchsorted seq val <= length seq)%nat /\
  (forall i, (i < searchsorted seq val)%nat -> nth i seq 0 < val) /\
  (forall i, (searchsorted seq val <= i < length seq)%nat -> val <= nth i seq 0).
Proof.
  unfold searchsorted.
  destruct (lower_bound_spec (length seq) 0 (length seq)) as [Hr [Hl Hh]].
  - lia.
  - lia.
  - intros i Hi. lia.
  - intros i Hi. lia.
  - split; [lia | auto].
Qed.
End LowerBound.

(** [argmax_from] returns the index of the first strictly largest entry
    after the running best, or the running best when nothing beats it. *)
Lemma argmax_from_spec (l : list Q) : forall (bi : nat) (bx : Q) (n : nat),
  (argmax_from (bi, bx) n l = bi /\ Forall (fun x => x <= bx) l)
  \/ (exists j,
        argmax_from (bi, bx) n l = (n + j)%nat /\
        (j < length l)%nat /\
        bx < nth j l 0 /\
        (forall i, (i < j)%nat -> nth i l 0 < nth j l 0) /\
        (forall i, (i < length l)%nat -> nth i l 0 <= nth j l 0)).
Proof.
  induction l as [| x l IH]; intros bi bx n; cbn [argmax_from fst snd].
  - left. split; [reflexivity | constructor].
  - destruct (Qle_bool x bx) eqn:Hcmp.
    + apply Qle_bool_iff in Hcmp.
      destruct (IH bi bx (S n)) as [[Ha Hall] | [j [Ha [Hj [Hbx [Hfirst Hmax]]]]]].
      * left. split; [exact Ha | constructor; assumption].
      * right. exists (S j). cbn [nth length].
        split; [rewrite Ha; lia |]. split; [lia |]. split; [exact Hbx |].
        split; intros [| i] Hi.
        -- eapply Qle_lt_trans; eassumption.
        -- apply Hfirst. lia.
        -- apply Qlt_le_weak. eapply Qle_lt_trans; eassumption.
        -- apply Hmax. lia.
    + assert (Hlt : bx < x).
      { apply Qnot_le_lt. intros Hle. apply Qle_bool_iff in Hle. congruence. }
      destruct (IH n x (S n)) as [[Ha Hall] | [j [Ha [Hj [Hbx [Hfirst Hmax]]]]]].
      * right. exists 0%nat. cbn [nth length].
        split; [rewrite Ha; lia |]. split; [lia |]. split; [exact Hlt |].
        split; intros [| i] Hi; try lia.
        -- apply Qle_refl.
        -- rewrite Forall_forall in Hall. apply Hall, nth_In. lia.
      * right. exists (S j). cbn [nth length].
        split; [rewrite Ha; lia |]. split; [lia |].
        split; [eapply Qlt_trans; eassumption |].
        split; intros [| i] Hi.
        -- exact Hbx.
        -- apply Hfirst. lia.
        -- apply Qlt_le_weak, Hbx.
        -- apply Hmax. lia.
Qed.

(** [argmax] is the index of the first maximal entry. *)
Lemma argmax_spec (probs : Probs) (a : Z) :
  argmax probs = Ret a ->
  exists j,
    a = Z.of_nat j /\
    (j < length probs)%nat /\
    (forall i, (i < length probs)%nat -> nth i probs 0 <= nth j probs 0) /\
    (forall i, (i < j)%nat -> nth i probs 0 < nth j probs 0).
Proof.
  destruct probs as [| x l]; cbn [argmax]; intros H; [discriminate |].
  injection H as <-.
  destruct (argmax_from_spec l 0%nat x 1%nat)
    as [[-> Hall] | [j [-> [Hj [Hbx [Hfirst Hmax]]]]]].
  - exists 0%nat. cbn [nth length].
    split; [reflexivity |]. split; [lia |].
    split; intros [| i] Hi; try lia.
    + apply Qle_refl.
    + rewrite Forall_forall in Hall. apply Hall, nth_In. lia.
  - exists (S j). cbn [nth length].
    split; [f_equal; lia |]. split; [lia |].
    split; intros [| i] Hi.
    + apply Qlt_le_weak, Hbx.
    + apply Hmax. lia.
    + exact Hbx.
    + apply Hfirst. lia.
Qed.

(** The bisection finds the prefix length at which the running sum first
    reaches the threshold. *)
Lemma searchsorted_crossing (s : list Q) (threshold : Q) (k : nat) :
  nonneg s ->
  (1 <= k <= length s)%nat ->
  threshold <= Qsum (firstn k s) ->
  (forall j, (1 <= j < k)%nat -> Qsum (firstn j s) < threshold) ->
  searchsorted (cumsum s) threshold = (k - 1)%nat.
Proof.
  intros Hnn Hk Hreach Hbelow.
  destruct (searchsorted_spec (cumsum s) threshold (cumsum_ascending s Hnn))
    as [Hr [Hl Hh]].
  rewrite cumsum_length in Hr, Hh.
  destruct (Nat.lt_trichotomy (searchsorted (cumsum s) threshold) (k - 1))
    as [Hlt | [Heq | Hgt]]; [| exact Heq |]; exfalso.
  - specialize (Hh (searchsorted (cumsum s) threshold)).
    rewrite cumsum_nth in Hh by lia.
    specialize (Hbelow (S (searchsorted (cumsum s) threshold))).
    apply (Qlt_irrefl threshold).
    eapply Qle_lt_trans; [apply Hh; lia | apply Hbelow; lia].
  - specialize (Hl (k - 1)%nat Hgt).
    rewrite cumsum_nth in Hl by lia.
    replace (S (k - 1)) with k in Hl by lia.
    apply (Qlt_irrefl threshold).
    eapply Qle_lt_trans; eassumption.
Qed.

Lemma firstn_snoc {A : Type} (d : A) (l : list A) : forall n,
  (n < length l)%nat -> firstn (S n) l = firstn n l ++ [nth n l d].
Proof.
  induction l as [| x l IH]; intros n Hn; simpl in Hn; [lia |].
  destruct n as [| n]; [reflexivity |].
  cbn [firstn nth app]. f_equal. apply IH. lia.
Qed.

Lemma last_item_firstn (s : list Q) (k : nat) :
  (1 <= k <= length s)%nat -> last_item (firstn k s) = Ret (nth (k - 1) s 0).
Proof.
  intros Hk. replace k with (S (k - 1)) at 1 by lia.
  rewrite (firstn_snoc 0) by lia. apply last_item_app.
Qed.

Lemma first_item_firstn (s : list Q) (k : nat) :
  (1 <= k <= length s)%nat -> first_item (firstn k s) = Ret (nth 0 s 0).
Proof.
  intros Hk. destruct s as [| x s]; [simpl in Hk; lia |].
  destruct k as [| k]; [lia | reflexivity].
Qed.

Lemma nonneg_nth (s : list Q) (i : nat) : nonneg s -> 0 <= nth i s 0.
Proof.
  intros H. destruct (Nat.lt_ge_cases i (length s)) as [Hi | Hi].
  - unfold nonneg in H. rewrite Forall_forall in H. apply H, nth_In, Hi.
  - rewrite nth_overflow by exact Hi. apply Qle_refl.
Qed.

Lemma epsilon_guard (p : Q) : 0 <= p -> Qeq_bool (p + epsilon) 0 = false.
Proof.
  intros Hp. destruct (Qeq_bool (p + epsilon) 0) eqn:E; [| reflexivity].
  apply Qeq_bool_iff in E. exfalso.
  apply (Qlt_irrefl 0). rewrite <- E at 2.
  apply (Qlt_le_trans _ (0 + epsilon)); [reflexivity |].
  apply Qplus_le_compat; [exact Hp | apply Qle_refl].
Qed.

(** When the entries do not add up to the threshold, [searchsorted] returns
    the length of the list and the ratio is taken over the whole sorted
    list. *)
Lemma flatness_threshold_not_reached (self : Strategy) (probs : Probs) :
  nonneg probs ->
  (2 <= length probs)%nat ->
  Qsum (sort_descending probs) < cumulative_prob_threshold self ->
  _is_distribution_flat self probs =
    Ret (Qle_bool (nth 0 (sort_descending probs) 0
                   / (nth (length probs - 1) (sort_descending probs) 0 + epsilon))
                  (ratio_threshold self)).
Proof.
  intros Hnn Hlen Hsum.
  pose proof (sort_descending_nonneg probs Hnn) as Hsnn.
  rewrite <- sort_descending_length in *.
  set (s := sort_descending probs) in *.
  assert (Hsearch : searchsorted (cumsum s) (cumulative_prob_threshold self) = length s).
  { destruct (searchsorted_spec (cumsum s) (cumulative_prob_threshold self)
                                (cumsum_ascending s Hsnn)) as [Hr [_ Hh]].
    rewrite cumsum_length in Hr, Hh.
    destruct (Nat.eq_dec (searchsorted (cumsum s) (cumulative_prob_threshold self))
                         (length s)) as [Heq | Hne]; [exact Heq | exfalso].
    specialize (Hh (searchsorted (cumsum s) (cumulative_prob_threshold self))).
    rewrite cumsum_nth in Hh by lia.
    apply (Qlt_irrefl (cumulative_prob_threshold self)).
    eapply Qle_lt_trans; [apply Hh; lia |].
    eapply Qle_lt_trans; [| exact Hsum].
    pose proof (Qsum_prefix_mono s Hsnn
                  (S (searchsorted (cumsum s) (cumulative_prob_threshold self)))
                  (length s)) as Hmono.
    rewrite firstn_all in Hmono. apply Hmono. lia. }
  unfold _is_distribution_flat. fold s. rewrite Hsearch.
  destruct (Nat.ltb_spec (length s + 1) 2); [lia |].
  replace (firstn (length s + 1) s) with (firstn (length s) s)
    by (rewrite firstn_all, firstn_all2 by lia; reflexivity).
  rewrite first_item_firstn, last_item_firstn by lia. cbn [bind].
  rewrite epsilon_guard by (apply nonneg_nth, Hsnn).
  reflexivity.
Qed.

(** * Further properties of the hooks *)

Local Open Scope Z_scope.

(** ** Bookkeeping in any call order *)

(** X2.  In every state the object can be in, whatever the order of the
    hook calls, the keep index is not negative, and a pending position has
    the keep index for frontier and a token that is not negative. *)
Theorem constructible_bookkeeping (self : Strategy) :
  constructible self ->
  0 <= get_keep_index self /\
  forall frontier token,
    _backtrack_position self = Some (frontier, token) ->
    frontier = get_keep_index self /\ 0 <= token.
Proof.
  unfold get_keep_index.
  induction 1 as [ct rt | self logits tokens self' logits' _ IH Hcall
                 | self probs tokens self' probs' _ IH Hcall
                 | self tokens probs self' _ IH Hcall
                 | self tokens cache self' out _ IH Hcall].
  - cbn. split; [lia | discriminate].
  - apply on_logits_cases in Hcall.
    destruct Hcall as [[-> _] | [f [t [_ [_ [-> _]]]]]]; [exact IH |].
    cbn. split; [apply IH | discriminate].
  - apply on_probs_cases in Hcall. destruct Hcall as [flat [_ [-> _]]]. exact IH.
  - apply on_next_token_cases in Hcall.
    destruct Hcall as [latest [preferred [Hlast [Harg Hcase]]]].
    destruct Hcase as [[_ ->] | [[_ [Hnone ->]] | [_ [_ ->]]]]; [| | exact IH].
    + apply last_item_ret_inv in Hlast. destruct Hlast as [front ->].
      rewrite length_app. cbn. split; [lia |].
      intros frontier token Heq. injection Heq as <- <-.
      split; [reflexivity |].
      destruct probs as [| x l]; [discriminate |].
      cbn in Harg. injection Harg as <-. lia.
    + cbn. split; [lia |]. intros frontier token Heq. congruence.
  - apply backtrack_state in Hcall. subst self'. exact IH.
Qed.

Lemma constructible_bookkeeping_witness :
  0 <= get_keep_index scenario_pending /\
  forall frontier token,
    _backtrack_position scenario_pending = Some (frontier, token) ->
    frontier = get_keep_index scenario_pending /\ 0 <= token.
Proof.
  apply constructible_bookkeeping. exact scenario_pending_constructible.
Defined.

(** ** Committed tokens *)

Lemma host_step_prefix (h h' : host) (c : call) :
  host_inv h -> host_step h c h' ->
  keep h <= keep h' /\
  firstn (Z.to_nat (keep h)) (h_tokens h') = firstn (Z.to_nat (keep h)) (h_tokens h).
Proof.
  unfold host_inv, keep, pending, token_count, get_keep_index.
  intros [Hnn [Hle Hfr]] Hstep.
  destruct (host_step_cases _ _ _ Hstep)
    as [[logits [self' [logits' [_ [Hph [Hcall ->]]]]]]
       | [[probs [self' [_ [Hph [Hcall ->]]]]]
         | [[token [probs [_ [Hph ->]]]]
           | [[probs [self' [_ [Hph [Hcall ->]]]]]
             | [cache [self' [tokens' [cache' [_ [Hph [Hcall ->]]]]]]]]]]];
    cbn [h_strategy h_tokens h_phase].
  - destruct (on_logits_cases _ _ _ _ _ Hcall)
      as [[-> _] | [f [t [_ [_ [-> _]]]]]]; cbn; split; (lia || reflexivity).
  - destruct (on_probs_cases _ _ _ _ _ Hcall) as [flat [_ [-> _]]]; cbn.
    split; (lia || reflexivity).
  - rewrite Hph in Hle. split; [lia |].
    rewrite firstn_app.
    replace (Z.to_nat (_keep_index (h_strategy h)) - length (h_tokens h))%nat
      with 0%nat by lia.
    cbn [firstn]. apply app_nil_r.
  - rewrite Hph in Hle.
    destruct (on_next_token_cases _ _ _ _ Hcall)
      as [latest [preferred [_ [_ [[_ ->] | [[_ [_ ->]] | [_ [_ ->]]]]]]]]; cbn;
      split; (lia || reflexivity).
  - rewrite Hph in Hle.
    pose proof (backtrack_state _ _ _ _ _ Hcall) as ->.
    split; [lia |].
    destruct (_is_flat (h_strategy h)) eqn:Hflat.
    + destruct (_backtrack_position (h_strategy h)) as [[f t] |] eqn:Hpos.
      * rewrite (backtrack_pending _ _ _ _ _ Hflat Hpos) in Hcall.
        destruct (f <? 0); [discriminate |].
        injection Hcall as <- _. specialize (Hfr f t eq_refl). subst f.
        rewrite firstn_firstn. f_equal. lia.
      * rewrite backtrack_idle in Hcall by (right; exact Hpos).
        injection Hcall as <- _. reflexivity.
    + rewrite backtrack_idle in Hcall by (left; exact Hflat).
      injection Hcall as <- _. reflexivity.
Qed.

(** X1.  Committed tokens are irrevocable: along every run in the
    prescribed order that starts in a reachable host state, the keep index
    does not go down and the tokens below the keep index of the starting
    state are still there, unchanged, at the end. *)
Theorem committed_prefix_kept (ct rt : Q) (calls : list call) : forall h h',
  reachable ct rt h ->
  run h calls = Some (Ret h') ->
  keep h <= keep h' /\
  firstn (Z.to_nat (keep h)) (h_tokens h') = firstn (Z.to_nat (keep h)) (h_tokens h).
Proof.
  induction calls as [| c calls IH]; intros h h' Hr Hrun; cbn in Hrun.
  - injection Hrun as <-. split; [lia | reflexivity].
  - destruct (host_call h c) as [[h1 | e |] |] eqn:Hcall; try discriminate.
    pose proof (reachable_inv _ _ _ Hr) as Hinv.
    destruct (host_step_prefix h h1 c Hinv Hcall) as [Hle1 Hpre1].
    assert (Hr1 : reachable ct rt h1) by (eapply reach_step; eassumption).
    destruct (IH h1 h' Hr1 Hrun) as [Hle2 Hpre2].
    destruct Hinv as [Hnn _]. split; [lia |].
    rewrite <- Hpre1.
    replace (Z.to_nat (keep h)) with (Nat.min (Z.to_nat (keep h)) (Z.to_nat (keep h1)))
      by lia.
    rewrite <- !firstn_firstn. rewrite Hpre2. reflexivity.
Qed.

Lemma committed_host_reachable : reachable (35 # 100) (15 # 10) committed_host.
Proof.
  apply (run_reachable _ _
           [CallLogits scenario_logits; CallProbs scenario_probs; Sample 7;
            CallNextToken] (host_init (35 # 100) (15 # 10)));
    [apply reach_init | reflexivity].
Qed.

Lemma committed_prefix_kept_witness :
  run committed_host rollback_run = Some (Ret committed_end) /\
  keep committed_host <= keep committed_end /\
  firstn 1 (h_tokens committed_end) = [7].
Proof.
  split; [reflexivity |].
  apply (committed_prefix_kept (35 # 100) (15 # 10) rollback_run
                               committed_host committed_end).
  - exact committed_host_reachable.
  - reflexivity.
Defined.

(** ** A host that always backtracks *)

Lemma diligent_reachable (ct rt : Q) (h : host) : diligent ct rt h -> reachable ct rt h.
Proof.
  induction 1 as [| h c h' _ IH Hstep _]; [apply reach_init |].
  eapply reach_step; eassumption.
Qed.

Lemma diligent_inv_step (h h' : host) (c : call) :
  host_inv h -> diligent_inv h -> host_step h c h' ->
  (forall logits, c = CallLogits logits -> h_phase h = ExpectLogits) ->
  diligent_inv h'.
Proof.
  unfold host_inv, diligent_inv, settled, keep, pending, token_count, get_keep_index.
  intros [Hnn [Hle Hfr]] [Hclean Hcut] Hstep Hdil.
  destruct (host_step_cases _ _ _ Hstep)
    as [[logits [self' [logits' [-> [_ [Hcall ->]]]]]]
       | [[probs [self' [-> [Hph [Hcall ->]]]]]
         | [[token [probs [-> [Hph ->]]]]
           | [[probs [self' [-> [Hph [Hcall ->]]]]]
             | [cache [self' [tokens' [cache' [-> [Hph [Hcall ->]]]]]]]]]]];
    cbn [h_strategy h_tokens h_phase].
  - specialize (Hdil logits eq_refl). rewrite Hdil in Hclean, Hle.
    split; [| discriminate].
    destruct (on_logits_cases _ _ _ _ _ Hcall)
      as [[-> _] | [f [t [Hflat [Hpos [-> _]]]]]]; cbn; [exact Hclean |].
    intros _. rewrite (Hcut Hdil f t Hpos Hflat). symmetry. apply (Hfr f t Hpos).
  - rewrite Hph in Hclean. split; [| discriminate].
    destruct (on_probs_cases _ _ _ _ _ Hcall) as [flat [_ [-> _]]]. exact Hclean.
  - rewrite Hph in Hclean. split; [| discriminate].
    intros Hnone. specialize (Hclean Hnone). rewrite length_app. cbn [length]. lia.
  - rewrite Hph in Hclean. split; [| discriminate].
    destruct (on_next_token_cases _ _ _ _ Hcall)
      as [latest [preferred [_ [_ [[_ ->] | [[_ [Hnone ->]] | [_ [Hsome ->]]]]]]]]; cbn.
    + discriminate.
    + intros _. specialize (Hclean Hnone). lia.
    + intros Hnone. contradiction.
  - rewrite Hph in Hclean, Hle.
    pose proof (backtrack_state _ _ _ _ _ Hcall) as ->.
    split.
    + intros Hnone. rewrite backtrack_idle in Hcall by (right; exact Hnone).
      injection Hcall as <- _. exact (Hclean Hnone).
    + intros _ f t Hpos Hflat.
      rewrite (backtrack_pending _ _ _ _ _ Hflat Hpos) in Hcall.
      destruct (f <? 0); [discriminate |].
      injection Hcall as <- _. specialize (Hfr f t Hpos).
      rewrite length_firstn. lia.
Qed.

(** X3.  When the host calls [backtrack] in every step, a state with no
    position pending has every token committed: the keep index is the number
    of tokens (one less between the append and [on_next_token]). *)
Theorem diligent_clean_settled (ct rt : Q) (h : host) :
  diligent ct rt h -> pending h = None -> settled h.
Proof.
  intros Hd. enough (Hinv : diligent_inv h) by exact (proj1 Hinv).
  induction Hd as [| h c h' Hd IH Hstep Hdil].
  - unfold diligent_inv, settled, keep, pending, token_count. cbn.
    split; [reflexivity | discriminate].
  - eapply diligent_inv_step; try eassumption.
    eapply reachable_inv, diligent_reachable, Hd.
Qed.

(** Without the [backtrack] call the divergent token stays in the list while
    [on_logits] clears the position: the state is clean with a token that is
    not committed. *)
Example skipped_backtrack_not_settled :
  run (host_init (35 # 100) (15 # 10))
      [CallLogits scenario_logits; CallProbs scenario_probs; Sample 2;
       CallNextToken; CallLogits scenario_logits] =
    Some (Ret (mkHost (mkStrategy (35 # 100) (15 # 10) true None 0) [2] ExpectProbs)).
Proof. reflexivity. Qed.

Lemma committed_host_diligent : diligent (35 # 100) (15 # 10) committed_host.
Proof.
  pose (s1 := mkStrategy (35 # 100) (15 # 10) true None 0).
  apply (diligent_step _ _ (mkHost s1 [7] (ExpectNextToken scenario_probs))
                       CallNextToken);
    [| reflexivity | intros l H; discriminate].
  apply (diligent_step _ _ (mkHost s1 [] (ExpectSample scenario_probs)) (Sample 7));
    [| reflexivity | intros l H; discriminate].
  apply (diligent_step _ _ (mkHost (init (35 # 100) (15 # 10)) [] ExpectProbs)
                       (CallProbs scenario_probs));
    [| reflexivity | intros l H; discriminate].
  apply (diligent_step _ _ (host_init (35 # 100) (15 # 10))
                       (CallLogits scenario_logits));
    [apply diligent_init | reflexivity | reflexivity].
Qed.

Lemma diligent_clean_settled_witness :
  keep committed_host = token_count committed_host.
Proof.
  apply (diligent_clean_settled (35 # 100) (15 # 10) committed_host).
  - exact committed_host_diligent.
  - reflexivity.
Defined.

(** ** Steps that agree with the argmax *)

Lemma on_logits_clean (self : Strategy) (logits : Logits) (tokens : list Z) :
  _backtrack_position self = None -> on_logits self logits tokens = Ret (self, logits).
Proof.
  intros H. unfold on_logits. rewrite H. destruct (_is_flat self); reflexivity.
Qed.

Lemma argmax_nonneg (probs : Probs) (a : Z) : argmax probs = Ret a -> 0 <= a.
Proof.
  destruct probs as [| x l]; cbn; intros H; [discriminate |].
  injection H as <-. lia.
Qed.

Lemma step_commits (ct rt : Q) (h : host) (x : step) :
  idle_clean ct rt h ->
  agreeing_step ct rt x ->
  exists h', run h (step_calls x) = Some (Ret h') /\
             idle_clean ct rt h' /\
             keep h' = keep h + 1 /\
             h_tokens h' = h_tokens h ++ [s_sampled x].
Proof.
  intros [Hph [Hct [Hrt Hnone]]] [verdict [Hverdict Harg]].
  destruct h as [self tokens ph]. destruct x as [logits probs sampled bt].
  unfold pending, keep, get_keep_index in *.
  cbn [h_strategy h_tokens h_phase s_probs s_sampled] in *.
  set (self1 := set_is_flat self verdict).
  set (self2 := set_keep_index self1 (_keep_index self + 1)).
  set (h4 := mkHost self2 (tokens ++ [sampled]) MayBacktrack).
  assert (H4 : run (mkHost self tokens ph)
                   [CallLogits logits; CallProbs probs; Sample sampled; CallNextToken]
               = Some (Ret h4)).
  { assert (Hp : on_probs self probs tokens = Ret (self1, probs)).
    { unfold on_probs. rewrite is_flat_thresholds, Hct, Hrt, Hverdict. reflexivity. }
    assert (Hn : on_next_token self1 (tokens ++ [sampled]) probs = Ret self2).
    { unfold on_next_token. rewrite last_item_app, Harg. cbn [bind].
      rewrite Z.eqb_refl. cbn [negb]. unfold self1. cbn. rewrite Hnone. reflexivity. }
    cbn [run]. unfold host_call at 1. cbn [h_phase h_strategy h_tokens].
    assert (Hfirst : match ph with
                     | ExpectLogits | MayBacktrack =>
                         Some (r <- on_logits self logits tokens ;;
                               Ret (mkHost (fst r) tokens ExpectProbs))
                     | _ => None
                     end = Some (Ret (mkHost self tokens ExpectProbs)))
      by (destruct Hph as [-> | ->]; rewrite (on_logits_clean _ _ _ Hnone);
          reflexivity).
    rewrite Hfirst.
    unfold host_call at 1. cbn [h_phase h_strategy h_tokens]. rewrite Hp. cbn [bind fst snd].
    unfold host_call at 1. cbn [h_phase h_strategy h_tokens].
    unfold host_call at 1. cbn [h_phase h_strategy h_tokens]. rewrite Hn. reflexivity. }
  assert (Hic : idle_clean ct rt h4).
  { unfold idle_clean, pending. cbn. auto. }
  unfold step_calls. cbn [s_logits s_probs s_sampled s_backtrack].
  rewrite (run_app _ _ _ _ H4).
  destruct bt as [cache |].
  - cbn [run]. unfold host_call. cbn [h_phase h4 h_strategy h_tokens].
    rewrite backtrack_idle by (right; exact Hnone). cbn [bind fst snd].
    eexists. split; [reflexivity |].
    split; [unfold idle_clean, pending; cbn; auto |].
    split; reflexivity.
  - exists h4. split; [reflexivity |]. split; [exact Hic |]. split; reflexivity.
Qed.

(** X4.  With nothing pending, steps whose sampled token is the argmax
    commit one token each: after [n] such steps the keep index has grown by
    [n], the sampled tokens have been appended in order and nothing is
    pending, whatever the verdicts and whether or not the host calls
    [backtrack]. *)
Theorem agreeing_steps_commit (ct rt : Q) (steps : list step) : forall h,
  idle_clean ct rt h ->
  Forall (agreeing_step ct rt) steps ->
  exists h',
    run h (flat_map step_calls steps) = Some (Ret h') /\
    pending h' = None /\
    keep h' = keep h + Z.of_nat (length steps) /\
    h_tokens h' = h_tokens h ++ map s_sampled steps.
Proof.
  induction steps as [| x steps IH]; intros h Hic Hall.
  - exists h. split; [reflexivity |].
    split; [apply Hic |]. split; [cbn; lia |]. cbn. symmetry. apply app_nil_r.
  - inversion Hall as [| x' steps' Hx Hrest]; subst.
    destruct (step_commits _ _ _ _ Hic Hx) as [h1 [Hrun1 [Hic1 [Hk1 Ht1]]]].
    destruct (IH h1 Hic1 Hrest) as [h2 [Hrun2 [Hp2 [Hk2 Ht2]]]].
    exists h2. split; [cbn [flat_map]; rewrite (run_app _ _ _ _ Hrun1); exact Hrun2 |].
    split; [exact Hp2 |].
    split; [rewrite Hk2, Hk1; cbn [length]; lia |].
    rewrite Ht2, Ht1, <- app_assoc. reflexivity.
Qed.

Lemma agreeing_steps_commit_witness :
  exists h',
    run committed_host
        (flat_map step_calls [agreeing_flat_step; agreeing_peaked_step])
      = Some (Ret h') /\
    pending h' = None /\
    keep h' = 3 /\
    h_tokens h' = [7; 7; 0].
Proof.
  destruct (agreeing_steps_commit (35 # 100) (15 # 10)
              [agreeing_flat_step; agreeing_peaked_step] committed_host)
    as [h' [Hrun [Hp [Hk Ht]]]].
  - unfold idle_clean, pending. cbn. auto.
  - repeat constructor; (exists true + exists false); split; reflexivity.
  - exists h'. auto.
Defined.

(** ** The correction, start to end *)

(** X5.  A divergence at a flat step is undone.  From a state with nothing
    pending, the calls of the diverging step ([on_probs] with a flat
    verdict, the append, [on_next_token]), then [backtrack], then the next
    step ([on_logits], [on_probs], the append of the preferred token,
    [on_next_token]) all return; the divergent token is gone, the preferred
    token stands in its place, nothing is pending and every token is
    committed. *)
Theorem correction_cycle (self : Strategy) (tokens : list Z) (sampled preferred : Z)
        (probs probs' : Probs) (logits : Logits) (cache : option Cache)
        (verdict' : bool) :
  _backtrack_position self = None ->
  _is_distribution_flat self probs = Ret true ->
  argmax probs = Ret preferred ->
  sampled <> preferred ->
  preferred < Z.of_nat (l_vocab logits) ->
  _is_distribution_flat self probs' = Ret verdict' ->
  argmax probs' = Ret preferred ->
  exists h',
    run (mkHost self tokens ExpectProbs)
        (correction_calls probs sampled cache logits probs' preferred)
      = Some (Ret h') /\
    h_tokens h' = tokens ++ [preferred] /\
    pending h' = None /\
    keep h' = token_count h'.
Proof.
  intros Hnone Hflat Harg Hne Hvocab Hflat' Harg'.
  pose proof (argmax_nonneg _ _ Harg) as Hnn.
  set (L := Z.of_nat (length tokens)).
  set (s1 := set_is_flat self true).
  set (s2 := set_backtrack_position (set_keep_index s1 L) (Some (L, preferred))).
  set (s3 := set_backtrack_position s2 None).
  set (s4 := set_is_flat s3 verdict').
  set (s5 := set_keep_index s4 (L + 1)).
  assert (H1 : on_probs self probs tokens = Ret (s1, probs))
    by (unfold on_probs; rewrite Hflat; reflexivity).
  assert (H2 : on_next_token s1 (tokens ++ [sampled]) probs = Ret s2).
  { unfold on_next_token. rewrite last_item_app, Harg. cbn [bind].
    destruct (Z.eqb_spec sampled preferred); [contradiction |].
    cbn [negb]. rewrite length_app. cbn [length].
    replace (Z.of_nat (length tokens + 1) - 1) with L by (unfold L; lia).
    reflexivity. }
  assert (H3 : exists cache',
             backtrack s2 (tokens ++ [sampled]) cache = Ret (s2, (tokens, cache'))).
  { rewrite (backtrack_pending s2 _ cache L preferred eq_refl eq_refl).
    destruct (Z.ltb_spec L 0); [unfold L in *; lia |].
    eexists. f_equal. f_equal. f_equal.
    unfold L. rewrite Nat2Z.id, firstn_app, Nat.sub_diag, firstn_all.
    cbn [firstn]. apply app_nil_r. }
  destruct H3 as [cache' H3].
  assert (H4 : exists logits', on_logits s2 logits tokens = Ret (s3, logits')).
  { rewrite (on_logits_pending s2 logits tokens L preferred eq_refl eq_refl)
      by lia.
    eexists. reflexivity. }
  destruct H4 as [logits' H4].
  assert (H5 : on_probs s3 probs' tokens = Ret (s4, probs')).
  { unfold on_probs.
    change (_is_distribution_flat s3 probs') with (_is_distribution_flat self probs').
    rewrite Hflat'. reflexivity. }
  assert (H6 : on_next_token s4 (tokens ++ [preferred]) probs' = Ret s5).
  { unfold on_next_token. rewrite last_item_app, Harg'. cbn [bind].
    rewrite Z.eqb_refl. reflexivity. }
  exists (mkHost s5 (tokens ++ [preferred]) MayBacktrack).
  split.
  - unfold correction_calls. cbn [run].
    unfold host_call at 1. cbn [h_phase h_strategy h_tokens]. rewrite H1. cbn [bind fst snd].
    unfold host_call at 1. cbn [h_phase h_strategy h_tokens].
    unfold host_call at 1. cbn [h_phase h_strategy h_tokens]. rewrite H2. cbn [bind].
    unfold host_call at 1. cbn [h_phase h_strategy h_tokens]. rewrite H3. cbn [bind fst snd].
    unfold host_call at 1. cbn [h_phase h_strategy h_tokens]. rewrite H4. cbn [bind fst snd].
    unfold host_call at 1. cbn [h_phase h_strategy h_tokens]. rewrite H5. cbn [bind fst snd].
    unfold host_call at 1. cbn [h_phase h_strategy h_tokens].
    unfold host_call at 1. cbn [h_phase h_strategy h_tokens]. rewrite H6. reflexivity.
  - split; [reflexivity |]. split; [reflexivity |].
    unfold keep, token_count, get_keep_index. cbn [h_strategy h_tokens s5 set_keep_index
                                                   _keep_index].
    rewrite length_app. cbn [length]. unfold L. lia.
Qed.

Lemma correction_cycle_witness :
  exists h',
    run (mkHost scenario_clean [5; 9] ExpectProbs)
        (correction_calls scenario_probs 2 (Some [[token_layer; token_layer]])
                          scenario_logits forced_probs 7)
      = Some (Ret h') /\
    h_tokens h' = [5; 9] ++ [7] /\
    pending h' = None /\
    keep h' = token_count h'.
Proof.
  apply (correction_cycle scenario_clean [5; 9] 2 7 scenario_probs forced_probs
                          scenario_logits (Some [[token_layer; token_layer]]) false).
  - reflexivity.
  - reflexivity.
  - reflexivity.
  - discriminate.
  - cbn. lia.
  - reflexivity.
  - reflexivity.
Defined.

(** ** When [on_logits] fails, and what forcing achieves *)

Lemma constructible_token (self : Strategy) :
  constructible self ->
  forall f t, _backtrack_position self = Some (f, t) -> 0 <= t.
Proof.
  induction 1 as [ct rt | self logits tokens self' logits' _ IH Hcall
                 | self probs tokens self' probs' _ IH Hcall
                 | self tokens probs self' _ IH Hcall
                 | self tokens cache self' out _ IH Hcall]; intros f t Hpos.
  - discriminate.
  - apply on_logits_cases in Hcall.
    destruct Hcall as [[-> _] | [f' [t' [_ [_ [-> _]]]]]]; [eauto | discriminate].
  - apply on_probs_cases in Hcall. destruct Hcall as [flat [_ [-> _]]]. eauto.
  - apply on_next_token_cases in Hcall.
    destruct Hcall as [latest [preferred [_ [Harg Hcase]]]].
    destruct Hcase as [[_ ->] | [[_ [Hnone ->]] | [_ [_ ->]]]]; [| | eauto].
    + cbn in Hpos. injection Hpos as _ <-. eapply argmax_nonneg, Harg.
    + cbn in Hpos. congruence.
  - apply backtrack_state in Hcall. subst self'. eauto.
Qed.

(** X6.  In a state the object can be in, [on_logits] raises exactly when it
    has a token to force (flat verdict, position pending) and the logits have
    no column for it; the exception is [IndexError], and in every other case
    the call returns. *)
Theorem on_logits_failure (self : Strategy) (logits : Logits) (tokens : list Z) :
  constructible self ->
  (on_logits self logits tokens = Raise IndexError <->
   _is_flat self = true /\
   exists frontier token,
     _backtrack_position self = Some (frontier, token) /\
     Z.of_nat (l_vocab logits) <= token) /\
  (on_logits self logits tokens = Raise IndexError \/
   exists r, on_logits self logits tokens = Ret r).
Proof.
  intros Hc. pose proof (constructible_token self Hc) as Htok.
  unfold on_logits.
  destruct (_is_flat self) eqn:Hflat.
  - destruct (_backtrack_position self) as [[f t] |] eqn:Hpos.
    + specialize (Htok f t eq_refl).
      unfold setitem_column.
      destruct (Z.leb_spec (- Z.of_nat (l_vocab logits)) t); [| lia].
      destruct (Z.ltb_spec t (Z.of_nat (l_vocab logits))) as [Hin | Hout];
        cbn [andb bind].
      * split; [| right; eexists; reflexivity].
        split; [discriminate |].
        intros [_ [f' [t' [Heq Hle]]]]. injection Heq as <- <-. lia.
      * split; [| left; reflexivity].
        split; [| reflexivity].
        intros _. split; [reflexivity |]. exists f, t. auto.
    + split; [| right; eexists; reflexivity].
      split; [discriminate |]. intros [_ [f [t [Heq _]]]]. discriminate.
  - split; [| right; eexists; reflexivity].
    split; [discriminate |]. intros [Heq _]. discriminate.
Qed.

Lemma on_logits_failure_witness :
  on_logits scenario_pending small_logits [5; 9] = Raise IndexError /\
  exists r, on_logits scenario_pending scenario_logits [5; 9] = Ret r.
Proof.
  split.
  - apply (proj1 (on_logits_failure scenario_pending small_logits [5; 9]
                                    scenario_pending_constructible)).
    split; [reflexivity |]. exists 2, 7. split; [reflexivity | cbn; lia].
  - destruct (proj2 (on_logits_failure scenario_pending scenario_logits [5; 9]
                                       scenario_pending_constructible))
      as [Hraise | Hret]; [discriminate | exact Hret].
Defined.

Local Open Scope Q_scope.

Lemma argmax_set_nth (row : list Q) (n : nat) (v : Q) :
  (n < length row)%nat ->
  Forall (fun x => x < v) row ->
  argmax (set_nth n v row) = Ret (Z.of_nat n).
Proof.
  intros Hn Hbelow.
  assert (Hlen : length (set_nth n v row) = length row) by apply set_nth_length.
  destruct (argmax (set_nth n v row)) as [a | e |] eqn:Harg.
  - destruct (argmax_spec _ _ Harg) as [j [-> [Hj [Hmax _]]]].
    f_equal. f_equal.
    destruct (Nat.eq_dec j n) as [Heq | Hneq]; [exact Heq | exfalso].
    specialize (Hmax n). rewrite Hlen in Hmax, Hj.
    rewrite (set_nth_same v 0 row n Hn) in Hmax.
    rewrite (set_nth_other v 0 row n j Hneq) in Hmax.
    rewrite Forall_forall in Hbelow.
    apply (Qlt_irrefl v). eapply Qle_lt_trans; [apply Hmax, Hn |].
    apply Hbelow, nth_In, Hj.
  - destruct row; [simpl in Hn; lia | destruct n; discriminate].
  - destruct row; [simpl in Hn; lia | destruct n; discriminate].
Qed.

(** X7.  Forcing wins.  When [on_logits] forces a token and every entry of
    the logits is below the maximum of the element type, the forced token is
    the argmax of every row of the returned logits. *)
Theorem forced_token_is_argmax (self self' : Strategy) (logits logits' : Logits)
        (tokens : list Z) (frontier token : Z) :
  _is_flat self = true ->
  _backtrack_position self = Some (frontier, token) ->
  logits_wf logits ->
  (0 <= token < Z.of_nat (l_vocab logits))%Z ->
  Forall (Forall (fun x => x < finfo_max (l_dtype logits))) (l_rows logits) ->
  on_logits self logits tokens = Ret (self', logits') ->
  length (l_rows logits') = length (l_rows logits) /\
  Forall (fun row' => argmax row' = Ret token) (l_rows logits').
Proof.
  intros Hflat Hpos Hwf Hrange Hbelow Hcall.
  rewrite (on_logits_pending _ _ _ _ _ Hflat Hpos Hrange) in Hcall.
  injection Hcall as _ <-. cbn [l_rows].
  split; [apply length_map |].
  apply Forall_map. unfold logits_wf in Hwf.
  rewrite Forall_forall in *. intros row Hin.
  rewrite argmax_set_nth; [f_equal; lia | | apply Hbelow, Hin].
  rewrite (Hwf row Hin). lia.
Qed.

Lemma forced_token_is_argmax_witness :
  on_logits scenario_pending scenario_logits [5; 9]%Z =
    Ret (set_backtrack_position scenario_pending None,
         mkLogits float32 10
                  (map (set_nth 7 (finfo_max float32)) (l_rows scenario_logits))) /\
  Forall (fun row' => argmax row' = Ret 7%Z)
         (map (set_nth 7 (finfo_max float32)) (l_rows scenario_logits)).
Proof.
  split; [reflexivity |].
  apply (forced_token_is_argmax
           scenario_pending (set_backtrack_position scenario_pending None)
           scenario_logits
           (mkLogits float32 10
                     (map (set_nth 7 (finfo_max float32)) (l_rows scenario_logits)))
           [5; 9]%Z 2%Z 7%Z).
  - reflexivity.
  - reflexivity.
  - repeat constructor.
  - cbn. lia.
  - repeat constructor.
  - reflexivity.
Defined.

Local Open Scope Z_scope.

(** ** The frontier and the end of the token list *)

(** X8.  When the pending frontier is at or beyond the end of the token
    list, [backtrack] pops nothing and the slice end is [0]: the tokens come
    back as they were, and every array of a non-empty cache comes back with
    no sequence position left (other axes and element type kept). *)
Theorem backtrack_nothing_to_pop (self : Strategy) (tokens : list Z)
        (kv : list Layer) (rest : Cache) (frontier token : Z) :
  _is_flat self = true ->
  _backtrack_position self = Some (frontier, token) ->
  Z.of_nat (length tokens) <= frontier ->
  exists cache',
    backtrack self tokens (Some (kv :: rest)) = Ret (self, (tokens, Some cache')) /\
    Forall2 (Forall2 (fun old new =>
               c_seq new = 0%nat /\ truncated_by (c_seq old) old new))
            (kv :: rest) cache'.
Proof.
  intros Hflat Hpos Hend.
  rewrite (backtrack_pending _ _ _ _ _ Hflat Hpos).
  destruct (Z.ltb_spec frontier 0); [lia |].
  rewrite firstn_all2 by lia.
  replace (Z.min frontier (Z.of_nat (length tokens)) - Z.of_nat (length tokens))
    with 0 by lia.
  eexists. split; [reflexivity |].
  apply Forall2_map_intro. intros pair.
  apply Forall2_map_intro. intros layer.
  assert (Hstop : slice_stop 0 (c_seq layer) = 0%nat)
    by (unfold slice_stop; cbn; lia).
  split; [exact Hstop |].
  unfold truncated_by.
  repeat match goal with |- _ /\ _ => split end; try reflexivity.
  - change (slice_stop 0 (c_seq layer) = (c_seq layer - c_seq layer)%nat).
    rewrite Hstop. lia.
  - apply slice_seq_wf.
Qed.

Lemma backtrack_nothing_to_pop_witness :
  exists cache',
    backtrack pending_at_end [5; 9; 2] (Some ([token_layer] :: [])) =
      Ret (pending_at_end, ([5; 9; 2], Some cache')) /\
    Forall2 (Forall2 (fun old new =>
               c_seq new = 0%nat /\ truncated_by (c_seq old) old new))
            ([token_layer] :: []) cache'.
Proof.
  apply (backtrack_nothing_to_pop pending_at_end [5; 9; 2] [token_layer] [] 3 7).
  - reflexivity.
  - reflexivity.
  - cbn. lia.
Defined.

(** X9.  In the prescribed order that case does not arise: whenever the
    host may call [backtrack], a pending frontier is the index of a token
    that is in the list, so a truncating [backtrack] removes at least one
    token. *)
Theorem frontier_inside_at_backtrack (ct rt : Q) (h : host) (frontier token : Z) :
  reachable ct rt h ->
  h_phase h = MayBacktrack ->
  pending h = Some (frontier, token) ->
  0 <= frontier < token_count h.
Proof.
  intros Hr Hph Hpos.
  destruct Hr as [| h0 c h Hr0 Hstep]; [discriminate |].
  pose proof (reachable_inv _ _ _ Hr0) as [Hnn [Hle Hfr]].
  unfold keep, pending, token_count, get_keep_index in *.
  destruct (host_step_cases _ _ _ Hstep)
    as [[logits [self' [logits' [_ [_ [_ ->]]]]]]
       | [[probs [self' [_ [_ [_ ->]]]]]
         | [[tok [probs [_ [_ ->]]]]
           | [[probs [self' [_ [Hph0 [Hcall ->]]]]]
             | [cache [self' [tokens' [cache' [_ [_ [_ ->]]]]]]]]]]];
    try discriminate.
  cbn [h_strategy h_tokens] in *. rewrite Hph0 in Hle.
  destruct (on_next_token_cases _ _ _ _ Hcall)
    as [latest [preferred [_ [_ [[_ ->] | [[_ [Hnone ->]] | [_ [_ ->]]]]]]]].
  - cbn in Hpos. injection Hpos as <- _. lia.
  - cbn in Hpos. congruence.
  - specialize (Hfr _ _ Hpos). lia.
Qed.

Lemma frontier_inside_at_backtrack_witness :
  exists h,
    host_step twice_diverging_host CallNextToken h /\
    0 <= 1 < token_count h.
Proof.
  exists (mkHost (mkStrategy (35 # 100) (15 # 10) false (Some (1, 0)) 1) [1; 1]
                 MayBacktrack).
  split; [reflexivity |].
  apply (frontier_inside_at_backtrack (35 # 100) (15 # 10) _ 1 0).
  - apply (reach_step _ _ twice_diverging_host CallNextToken); [| reflexivity].
    apply (run_reachable _ _ twice_diverging_run (host_init (35 # 100) (15 # 10)));
      [apply reach_init | reflexivity].
  - reflexivity.
  - reflexivity.
Defined.

Local Open Scope Q_scope.

(** ** More on the classifier *)

Lemma is_flat_sorted (self : Strategy) (probs : Probs) :
  _is_distribution_flat self probs = verdict_of_sorted self (sort_descending probs).
Proof. reflexivity. Qed.

(** X10.  On a distribution without negative entries the classifier raises
    nothing, whatever the thresholds and also for an empty distribution:
    [on_probs] returns the distribution it was given and records the
    verdict. *)
Theorem on_probs_returns (self : Strategy) (probs : Probs) (tokens : list Z) :
  nonneg probs ->
  exists verdict,
    _is_distribution_flat self probs = Ret verdict /\
    on_probs self probs tokens = Ret (set_is_flat self verdict, probs).
Proof.
  intros Hnn.
  enough (H : exists verdict, _is_distribution_flat self probs = Ret verdict).
  { destruct H as [verdict H]. exists verdict. split; [exact H |].
    unfold on_probs. rewrite H. reflexivity. }
  pose proof (sort_descending_nonneg probs Hnn) as Hsnn.
  unfold _is_distribution_flat.
  set (s := sort_descending probs) in *.
  destruct (searchsorted_spec (cumsum s) (cumulative_prob_threshold self)
                              (cumsum_ascending s Hsnn)) as [Hr _].
  rewrite cumsum_length in Hr.
  set (r := searchsorted (cumsum s) (cumulative_prob_threshold self)) in *.
  destruct (Nat.ltb_spec (r + 1) 2) as [Hlt | Hge]; [eexists; reflexivity |].
  assert (Hk : exists k, (1 <= k <= length s)%nat /\ firstn (r + 1) s = firstn k s).
  { destruct (Nat.le_gt_cases (r + 1) (length s)) as [Hin | Hout].
    - exists (r + 1)%nat. split; [lia | reflexivity].
    - exists (length s). split; [lia |].
      rewrite firstn_all, firstn_all2 by lia. reflexivity. }
  destruct Hk as [k [Hk ->]].
  rewrite first_item_firstn, last_item_firstn by exact Hk. cbn [bind].
  rewrite epsilon_guard by (apply nonneg_nth, Hsnn).
  eexists. reflexivity.
Qed.

Lemma on_probs_returns_witness :
  exists verdict,
    _is_distribution_flat default_strategy scenario_b = Ret verdict /\
    on_probs default_strategy scenario_b [5; 9]%Z
      = Ret (set_is_flat default_strategy verdict, scenario_b).
Proof.
  apply on_probs_returns. repeat constructor; discriminate.
Defined.

(** A negative entry can make the divisor zero. *)
Example negative_entry_raises :
  _is_distribution_flat default_strategy [- (1 # 100000000)] = Raise ZeroDivisionError.
Proof. reflexivity. Qed.

Lemma sorted_head_max (s : list Q) (p : Q) :
  StronglySorted (fun x y => y <= x) s -> In p s -> p <= nth 0 s 0.
Proof.
  intros Hs Hin. destruct s as [| x s]; [contradiction |].
  cbn [nth]. destruct Hin as [-> | Hin]; [apply Qle_refl |].
  inversion Hs as [| x' s' _ Hall]; subst.
  rewrite Forall_forall in Hall. apply Hall, Hin.
Qed.

(** X11.  A distribution without negative entries in which some entry
    reaches [cumulative_prob_threshold] is never flat, whatever
    [ratio_threshold]; after [on_probs] has seen it, [backtrack] and
    [on_logits] return what they are given, whatever is pending. *)
Theorem dominant_entry_not_flat (self : Strategy) (probs : Probs) (p : Q)
        (tokens : list Z) :
  nonneg probs ->
  In p probs ->
  cumulative_prob_threshold self <= p ->
  _is_distribution_flat self probs = Ret false /\
  exists self',
    on_probs self probs tokens = Ret (self', probs) /\
    (forall tokens' cache,
        backtrack self' tokens' cache = Ret (self', (tokens', cache))) /\
    (forall logits tokens',
        on_logits self' logits tokens' = Ret (self', logits)).
Proof.
  intros Hnn Hin Hp.
  assert (Hverdict : _is_distribution_flat self probs = Ret false).
  { pose proof (sort_descending_nonneg probs Hnn) as Hsnn.
    assert (Hins : In p (sort_descending probs))
      by (eapply Permutation_in; [apply sort_descending_perm | exact Hin]).
    pose proof (sorted_head_max _ _ (sort_descending_sorted probs) Hins) as Hhead.
    assert (Hlen : (1 <= length (sort_descending probs))%nat)
      by (destruct (sort_descending probs); [contradiction | simpl; lia]).
    assert (Hsearch : searchsorted (cumsum (sort_descending probs))
                                   (cumulative_prob_threshold self) = (1 - 1)%nat).
    { apply searchsorted_crossing; [exact Hsnn | lia | | intros j Hj; lia].
      eapply Qle_trans; [exact Hp |]. eapply Qle_trans; [exact Hhead |].
      destruct (sort_descending probs) as [| x s]; [simpl in Hlen; lia |].
      cbn. rewrite Qplus_0_r. apply Qle_refl. }
    unfold _is_distribution_flat. rewrite Hsearch. reflexivity. }
  split; [exact Hverdict |].
  exists (set_is_flat self false).
  split; [unfold on_probs; rewrite Hverdict; reflexivity |].
  split.
  - intros tokens' cache. apply backtrack_idle. left. reflexivity.
  - intros logits tokens'. reflexivity.
Qed.

Lemma dominant_entry_not_flat_witness :
  _is_distribution_flat scenario_pending scenario_a = Ret false /\
  exists self',
    on_probs scenario_pending scenario_a [5; 9; 2]%Z = Ret (self', scenario_a) /\
    (forall tokens' cache,
        backtrack self' tokens' cache = Ret (self', (tokens', cache))) /\
    (forall logits tokens',
        on_logits self' logits tokens' = Ret (self', logits)).
Proof.
  apply (dominant_entry_not_flat scenario_pending scenario_a (50 # 100)).
  - repeat constructor; discriminate.
  - left. reflexivity.
  - discriminate.
Defined.

(** X12.  Raising [ratio_threshold] never turns a flat verdict into a
    non-flat one: a distribution that is flat for one ratio threshold is flat
    for every larger one, the cumulative threshold being the same. *)
Theorem ratio_threshold_monotone (self self' : Strategy) (probs : Probs) :
  cumulative_prob_threshold self' = cumulative_prob_threshold self ->
  ratio_threshold self <= ratio_threshold self' ->
  _is_distribution_flat self probs = Ret true ->
  _is_distribution_flat self' probs = Ret true.
Proof.
  intros Hct Hrt. unfold _is_distribution_flat. rewrite Hct.
  destruct (_ <? 2)%nat; [discriminate |].
  destruct (first_item _) as [max_prob | e |]; cbn [bind]; try discriminate.
  destruct (last_item _) as [last_prob | e |]; cbn [bind]; try discriminate.
  destruct (Qeq_bool _ 0); [discriminate |].
  intros H. injection H as H. f_equal.
  apply Qle_bool_iff. apply Qle_bool_iff in H.
  eapply Qle_trans; eassumption.
Qed.

Lemma ratio_threshold_monotone_witness :
  _is_distribution_flat lenient_strategy scenario_b = Ret true.
Proof.
  apply (ratio_threshold_monotone default_strategy lenient_strategy scenario_b).
  - reflexivity.
  - discriminate.
  - reflexivity.
Defined.

(** ** The verdict does not depend on the order of the entries *)

Lemma desc_map_Qred (s : list Q) :
  StronglySorted (fun x y => y <= x) s ->
  StronglySorted (fun x y => y <= x) (map Qred s).
Proof.
  induction 1 as [| x s _ IH Hall]; cbn [map]; constructor; [exact IH |].
  apply Forall_map. eapply Forall_impl; [| exact Hall].
  intros y Hy. cbn. rewrite !Qred_correct. exact Hy.
Qed.

(** Two descending lists of reduced fractions with the same entries are the
    same list. *)
Lemma desc_perm_unique (u : list Q) : forall u',
  Forall (fun q => Qred q = q) u ->
  Permutation u u' ->
  StronglySorted (fun x y => y <= x) u ->
  StronglySorted (fun x y => y <= x) u' ->
  u = u'.
Proof.
  induction u as [| a t IH]; intros u' Hred Hperm Hs Hs'.
  - symmetry. apply Permutation_nil, Hperm.
  - destruct u' as [| b t'].
    { apply Permutation_sym, Permutation_nil in Hperm. discriminate. }
    assert (Hb : In b (a :: t))
      by (eapply Permutation_in; [apply Permutation_sym, Hperm | left; reflexivity]).
    assert (Ha : In a (b :: t'))
      by (eapply Permutation_in; [exact Hperm | left; reflexivity]).
    pose proof (sorted_head_max _ _ Hs Hb) as Hba.
    pose proof (sorted_head_max _ _ Hs' Ha) as Hab.
    cbn [nth] in Hba, Hab.
    assert (Heq : a = b).
    { rewrite Forall_forall in Hred.
      rewrite <- (Hred a (or_introl eq_refl)), <- (Hred b Hb).
      apply Qred_complete, Qle_antisym; assumption. }
    subst b. f_equal.
    inversion Hred; subst. inversion Hs; subst. inversion Hs'; subst.
    apply IH; try assumption.
    eapply Permutation_cons_inv, Hperm.
Qed.

Lemma map_Qred_eq (s : list Q) : forall s',
  map Qred s = map Qred s' -> Forall2 Qeq s s'.
Proof.
  induction s as [| x s IH]; intros [| y s'] H; try discriminate; constructor.
  - injection H as Hxy _. rewrite <- (Qred_correct x), <- (Qred_correct y), Hxy.
    reflexivity.
  - injection H as _ Hrest. apply IH, Hrest.
Qed.

(** Sorting two orders of the same entries gives the same values. *)
Lemma sort_descending_permutation (probs probs' : list Q) :
  Permutation (map Qred probs) (map Qred probs') ->
  Forall2 Qeq (sort_descending probs) (sort_descending probs').
Proof.
  intros Hperm. apply map_Qred_eq, desc_perm_unique.
  - apply Forall_map, Forall_forall. intros q _. cbn.
    apply Qred_complete, Qred_correct.
  - eapply Permutation_trans;
      [apply Permutation_map, Permutation_sym, sort_descending_perm |].
    eapply Permutation_trans; [exact Hperm |].
    apply Permutation_map, sort_descending_perm.
  - apply desc_map_Qred, sort_descending_sorted.
  - apply desc_map_Qred, sort_descending_sorted.
Qed.

Lemma Forall2_Qeq_nth (l l' : list Q) : Forall2 Qeq l l' ->
  forall i, nth i l 0 == nth i l' 0.
Proof.
  induction 1 as [| x y l l' Hxy _ IH]; intros [| i]; cbn; auto; reflexivity.
Qed.

Lemma Forall2_Qeq_firstn (l l' : list Q) : Forall2 Qeq l l' ->
  forall k, Forall2 Qeq (firstn k l) (firstn k l').
Proof.
  induction 1 as [| x y l l' Hxy _ IH]; intros [| k]; cbn; constructor; auto.
Qed.

Lemma cumsum_from_Qeq (l l' : list Q) : Forall2 Qeq l l' ->
  forall acc acc', acc == acc' ->
  Forall2 Qeq (cumsum_from acc l) (cumsum_from acc' l').
Proof.
  induction 1 as [| x y l l' Hxy _ IH]; intros acc acc' Hacc; cbn; constructor.
  - rewrite Hacc, Hxy. reflexivity.
  - apply IH. rewrite Hacc, Hxy. reflexivity.
Qed.

Lemma cumsum_Qeq (l l' : list Q) :
  Forall2 Qeq l l' -> Forall2 Qeq (cumsum l) (cumsum l').
Proof.
  intros H. destruct H as [| x y l l' Hxy Hrest]; cbn; constructor;
    [exact Hxy | apply cumsum_from_Qeq; assumption].
Qed.

Lemma lower_bound_Qeq (seq seq' : list Q) (val : Q) :
  Forall2 Qeq seq seq' ->
  forall fuel start stop,
    lower_bound fuel seq val start stop = lower_bound fuel seq' val start stop.
Proof.
  intros H. induction fuel as [| fuel IH]; intros start stop; cbn [lower_bound];
    [reflexivity |].
  destruct (start <? stop)%nat; [| reflexivity].
  rewrite (Forall2_Qeq_nth _ _ H (start + (stop - start) / 2)).
  rewrite !IH. reflexivity.
Qed.

Lemma item_ends (t : list Q) :
  t <> [] ->
  first_item t = Ret (nth 0 t 0) /\ last_item t = Ret (nth (length t - 1) t 0).
Proof.
  intros Hne.
  assert (Hlen : (1 <= length t <= length t)%nat)
    by (destruct t; [contradiction | simpl; lia]).
  rewrite <- (firstn_all t) at 1 3.
  split; [apply first_item_firstn | apply last_item_firstn]; exact Hlen.
Qed.

Lemma verdict_of_sorted_Qeq (self : Strategy) (s s' : list Q) :
  Forall2 Qeq s s' -> verdict_of_sorted self s = verdict_of_sorted self s'.
Proof.
  intros H. unfold verdict_of_sorted, searchsorted.
  rewrite (lower_bound_Qeq _ _ _ (cumsum_Qeq _ _ H)).
  rewrite (Forall2_length (cumsum_Qeq _ _ H)).
  set (k := (lower_bound _ _ _ _ _ + 1)%nat).
  destruct (k <? 2)%nat; [reflexivity |].
  pose proof (Forall2_Qeq_firstn _ _ H k) as Htop.
  destruct (firstn k s) as [| a t] eqn:Et.
  - inversion Htop. reflexivity.
  - destruct (firstn k s') as [| a' t'] eqn:Et'; [inversion Htop |].
    destruct (item_ends (a :: t)) as [-> ->]; [discriminate |].
    destruct (item_ends (a' :: t')) as [-> ->]; [discriminate |].
    cbn [bind]. rewrite <- (Forall2_length Htop).
    pose proof (Forall2_Qeq_nth _ _ Htop 0) as Hmax.
    pose proof (Forall2_Qeq_nth _ _ Htop (length (a :: t) - 1)) as Hlast.
    set (m := nth 0 (a :: t) 0) in *. set (m' := nth 0 (a' :: t') 0) in *.
    set (l := nth (length (a :: t) - 1) (a :: t) 0) in *.
    set (l' := nth (length (a :: t) - 1) (a' :: t') 0) in *.
    assert (Hguard : Qeq_bool (l + epsilon) 0 = Qeq_bool (l' + epsilon) 0)
      by (rewrite Hlast; reflexivity).
    assert (Hratio : Qle_bool (m / (l + epsilon)) (ratio_threshold self)
                     = Qle_bool (m' / (l' + epsilon)) (ratio_threshold self))
      by (rewrite Hmax, Hlast; reflexivity).
    rewrite Hguard, Hratio. reflexivity.
Qed.

(** X13.  The verdict depends on the values in the distribution only: two
    distributions with the same entries in any order, each entry written as
    any fraction of the same value, get the same verdict (or raise the same
    exception). *)
Theorem verdict_permutation_invariant (self : Strategy) (probs probs' : Probs) :
  Permutation (map Qred probs) (map Qred probs') ->
  _is_distribution_flat self probs = _is_distribution_flat self probs'.
Proof.
  intros Hperm. rewrite !is_flat_sorted.
  apply verdict_of_sorted_Qeq, sort_descending_permutation, Hperm.
Qed.

Lemma verdict_permutation_invariant_witness :
  _is_distribution_flat default_strategy scenario_b_shuffled = Ret true.
Proof.
  rewrite (verdict_permutation_invariant default_strategy scenario_b_shuffled
                                         scenario_b).
  - reflexivity.
  - change (Permutation ((13 # 100) :: [3 # 10; 7 # 25; 29 # 100])
                        ([3 # 10; 29 # 100; 7 # 25] ++ (13 # 100) :: [])).
    apply Permutation_cons_app. cbn [app].
    constructor. apply perm_swap.
Defined.

Local Open Scope Z_scope.

(** ** Empty inputs of [on_next_token] *)

(** X14.  [on_next_token] returns exactly when the token list and the
    distribution are both non-empty; on an empty token list, and on an empty
    distribution, it raises [IndexError]. *)
Theorem on_next_token_returns_iff (self : Strategy) (tokens : list Z) (probs : Probs) :
  ((exists self', on_next_token self tokens probs = Ret self') <->
   tokens <> [] /\ probs <> []) /\
  (tokens = [] -> on_next_token self tokens probs = Raise IndexError) /\
  (probs = [] -> on_next_token self tokens probs = Raise IndexError).
Proof.
  split; [split |].
  - intros [self' H]. apply on_next_token_cases in H.
    destruct H as [latest [preferred [Hlast [Harg _]]]].
    split; intros ->; discriminate.
  - intros [Ht Hp]. unfold on_next_token.
    destruct (exists_last Ht) as [front [sampled ->]].
    rewrite last_item_app. cbn [bind].
    destruct probs as [| x l]; [contradiction |]. cbn [argmax bind].
    destruct (negb _); [eexists; reflexivity |].
    destruct (_backtrack_position self); eexists; reflexivity.
  - split.
    + intros ->. reflexivity.
    + intros ->. unfold on_next_token, last_item.
      destruct (rev tokens); reflexivity.
Qed.

Lemma on_next_token_returns_iff_witness :
  (exists self', on_next_token default_strategy [5; 9; 2] scenario_probs = Ret self') /\
  on_next_token default_strategy [] scenario_probs = Raise IndexError.
Proof.
  split.
  - apply (proj1 (on_next_token_returns_iff default_strategy [5; 9; 2] scenario_probs)).
    split; discriminate.
  - apply (proj1 (proj2 (on_next_token_returns_iff default_strategy [] scenario_probs))).
    reflexivity.
Defined.

(** * The classifier in floating point *)

Local Open Scope Q_scope.

(** ** Rounding to nearest *)

Lemma pow2_pos (e : Z) : 0 < pow2 e.
Proof. apply Qpower_0_lt. reflexivity. Qed.

Lemma pow2_add (a b : Z) : pow2 (a + b) == pow2 a * pow2 b.
Proof. apply Qpower_plus. discriminate. Qed.

Lemma pow2_le (a b : Z) : (a <= b)%Z -> pow2 a <= pow2 b.
Proof. intros H. apply Qpower_le_compat_l; [exact H | discriminate]. Qed.


Lemma pow2_le_inv (a b : Z) : pow2 a <= pow2 b -> (a <= b)%Z.
Proof. intros H. eapply Qpower_le_compat_l_inv; [exact H | reflexivity]. Qed.

Lemma pow2_lt_inv (a b : Z) : pow2 a < pow2 b -> (a < b)%Z.
Proof. intros H. eapply Qpower_lt_compat_l_inv; [exact H | reflexivity]. Qed.

Lemma pow2_Z (n : Z) : (0 <= n)%Z -> inject_Z (2 ^ n) == pow2 n.
Proof. intros H. apply Zpower_Qpower, H. Qed.


Lemma mag_spec (q : Q) : 0 < q -> pow2 (mag q - 1) <= q /\ q < pow2 (mag q).
Proof.
  intros Hq. unfold mag.
  set (n := Qnum q). set (d := Zpos (Qden q)).
  assert (Hn : (0 < n)%Z).
  { unfold Qlt in Hq. simpl in Hq. unfold n. lia. }
  assert (Hd : (0 < d)%Z) by (unfold d; lia).
  destruct (Z.log2_spec n Hn) as [Hn1 Hn2].
  destruct (Z.log2_spec d Hd) as [Hd1 Hd2].
  set (ln := Z.log2 n) in *. set (ld := Z.log2 d) in *.
  assert (Hln : (0 <= ln)%Z) by apply Z.log2_nonneg.
  assert (Hld : (0 <= ld)%Z) by apply Z.log2_nonneg.
  assert (Hq' : q == inject_Z n / inject_Z d).
  { unfold n, d. rewrite <- Qmake_Qdiv. destruct q; reflexivity. }
  assert (Hdq : 0 < inject_Z d) by (unfold Qlt; simpl; lia).
  assert (Hlow : pow2 (ln - ld - 1) <= q).
  { rewrite Hq'. apply Qle_shift_div_l; [exact Hdq |].
    apply (Qle_trans _ (pow2 (ln - ld - 1) * pow2 (ld + 1))).
    - apply Qmult_le_l; [apply pow2_pos |].
      rewrite <- pow2_Z by lia. rewrite <- Zle_Qle.
      replace (ld + 1)%Z with (Z.succ ld) by lia. lia.
    - rewrite <- pow2_add. replace (ln - ld - 1 + (ld + 1))%Z with ln by lia.
      rewrite <- pow2_Z by lia. rewrite <- Zle_Qle. exact Hn1. }
  assert (Hhigh : q < pow2 (ln - ld + 1)).
  { rewrite Hq'. apply Qlt_shift_div_r; [exact Hdq |].
    apply (Qlt_le_trans _ (pow2 (ln + 1))).
    - rewrite <- pow2_Z by lia. rewrite <- Zlt_Qlt.
      replace (ln + 1)%Z with (Z.succ ln) by lia. exact Hn2.
    - apply (Qle_trans _ (pow2 (ln - ld + 1) * pow2 ld)).
      + rewrite <- pow2_add. apply pow2_le. lia.
      + apply Qmult_le_l; [apply pow2_pos |].
        rewrite <- pow2_Z by lia. rewrite <- Zle_Qle. exact Hd1. }
  destruct (Qle_bool (pow2 (ln - ld)) q) eqn:E.
  - apply Qle_bool_iff in E. split.
    + replace (ln - ld + 1 - 1)%Z with (ln - ld)%Z by lia. exact E.
    + exact Hhigh.
  - split; [exact Hlow |].
    apply Qnot_le_lt. intros H. apply Qle_bool_iff in H. congruence.
Qed.

Lemma mag_unique (q : Q) (m : Z) : pow2 (m - 1) <= q -> q < pow2 m -> mag q = m.
Proof.
  intros H1 H2.
  assert (Hq : 0 < q) by (eapply Qlt_le_trans; [apply pow2_pos | exact H1]).
  destruct (mag_spec q Hq) as [H3 H4].
  assert (m - 1 < mag q)%Z by (apply pow2_lt_inv; eapply Qle_lt_trans; eassumption).
  assert (mag q - 1 < m)%Z by (apply pow2_lt_inv; eapply Qle_lt_trans; eassumption).
  lia.
Qed.


Lemma rhe_comp (x y : Q) : x == y -> round_half_even x = round_half_even y.
Proof.
  intros H. unfold round_half_even.
  rewrite (Qfloor_comp _ _ H).
  assert (E : Qcompare (x - inject_Z (Qfloor y)) (1 # 2) = Qcompare (y - inject_Z (Qfloor y)) (1 # 2))
    by (rewrite H; reflexivity).
  rewrite E. reflexivity.
Qed.






Lemma round_pos_comp (fmt : format) (q q' : Q) :
  q == q' -> 0 < q -> round_pos fmt q == round_pos fmt q'.
Proof.
  intros H Hq. unfold round_pos, cexp.
  assert (Hm : mag q = mag q').
  { destruct (mag_spec q Hq) as [A B]. symmetry. apply mag_unique; rewrite <- H; assumption. }
  rewrite Hm.
  rewrite (rhe_comp (q / pow2 (Z.max (mag q' - prec fmt) (emin fmt)))
                    (q' / pow2 (Z.max (mag q' - prec fmt) (emin fmt))))
    by (rewrite H; reflexivity).
  reflexivity.
Qed.









(** ** Values and sums that are not negative *)














(** ** The running sums do not go down *)














Lemma exact_lawful : lawful exact_kernel.
Proof.
  constructor; unfold nonneg_in;
    cbn [exact_kernel elt py zero sort_desc running_sum le of_py item py_add py_eps
         py_is_zero py_div py_le].
  - apply sort_descending_perm.
  - apply cumsum_length.
  - intros l t i j Hall Hij Ht.
    apply Qle_bool_iff. apply Qle_bool_iff in Ht.
    eapply Qle_trans; [exact Ht |].
    apply cumsum_ascending; [| rewrite cumsum_length; exact Hij].
    unfold nonneg. eapply Forall_impl; [| exact Hall].
    intros a Ha. apply Qle_bool_iff, Ha.
  - intros x Hx. apply epsilon_guard. apply Qle_bool_iff, Hx.
Qed.

Lemma lower_bound_exact (seq : list Q) (val : Q) : forall fuel start stop,
  lower_bound_in exact_kernel fuel seq val start stop
  = lower_bound fuel seq val start stop.
Proof.
  induction fuel as [| fuel IH]; intros start stop; cbn [lower_bound_in lower_bound];
    [reflexivity |].
  rewrite !IH. reflexivity.
Qed.

(** [_is_distribution_flat] is the classifier over exact arithmetic. *)
Lemma is_flat_exact_instance (self : Strategy) (probs : Probs) :
  _is_distribution_flat self probs =
  is_distribution_flat_in exact_kernel (cumulative_prob_threshold self)
                          (ratio_threshold self) probs.
Proof.
  unfold _is_distribution_flat, is_distribution_flat_in, searchsorted_in, searchsorted.
  rewrite lower_bound_exact. reflexivity.
Qed.

(** ** The bisection over any arithmetic *)

Section Bisection.

Variable K : kernel.
Variable seq : list (elt K).
Variable val : elt K.

(** Once an entry has reached [val], the later ones have too. *)
Hypothesis stays : forall i j,
  (i <= j < length seq)%nat ->
  le K val (nth i seq (zero K)) = true -> le K val (nth j seq (zero K)) = true.



End Bisection.

(** ** The boundary *)






(** Rounding matters: the six values of [tie_probs] add up to one and only
    the first three reach [0.5] exactly, but the [float32] running sum of the
    first two is already [0.5]; the classifier of the code says flat, the one
    over exact rationals does not. *)
Example rounding_moves_the_crossing :
  running_sum ieee_cpu (sort_desc ieee_cpu (map f32 tie_probs)) =
    [Fin (8388608 # 33554432); Fin (16777216 # 33554432); Fin (10485760 # 16777216);
     Fin (12582912 # 16777216); Fin (14680064 # 16777216); Fin (8388608 # 8388608)]
  /\ is_distribution_flat_in ieee_cpu (f64 (1 # 2)) (f64 (15 # 10)) (map f32 tie_probs)
      = Ret true
  /\ is_distribution_flat_in ieee_single (f64 (1 # 2)) (f64 (15 # 10)) (map f32 tie_probs)
      = Ret true
  /\ is_distribution_flat_in exact_kernel (1 # 2) (15 # 10) tie_probs = Ret false.
Proof. repeat split; vm_compute; reflexivity. Qed.
